(** * The Telepresence in-cluster DNS resolver ([k8s-proxy/resolver.py])

    A shallow embedding of [LocalResolver] and of the helpers it uses,
    followed by the properties of the resolution policy: loop guard,
    Kubernetes name completion, search-suffix learning and stripping,
    the sanity check, the AAAA rewrite and the fallback chains.

    Python [bytes] are modelled as [string] (a list of 8-bit characters),
    the mutable [self.suffixes] list as a field of the resolver record that
    is threaded through every call, and Twisted [Deferred]s as already-fired
    results: callbacks and errbacks run in the order in which they were
    added.  The three upstream name sources (the Kube DNS client, the
    fallback client and the blocking [resolve]) are parameters of the
    model; every call to one of them is recorded in a trace. *)

From Stdlib Require Import String Ascii List Bool Arith NArith ZArith Lia.
From Stdlib Require Import Sorted Permutation.
Import ListNotations.
Open Scope string_scope.
Open Scope list_scope.

Definition bytes : Type := string.

(** ** The [bytes] methods and slices used by the resolver *)

Module Bytes.

(** [s.split(sep)] for a one-byte separator: never the empty list. *)
Fixpoint split (sep : ascii) (s : bytes) : list bytes :=
  match s with
  | EmptyString => [EmptyString]
  | String c rest =>
      if Ascii.eqb c sep then EmptyString :: split sep rest
      else match split sep rest with
           | [] => [String c EmptyString]
           | label :: labels => String c label :: labels
           end
  end.

(** [sep.join(parts)]. *)
Definition join (sep : bytes) (parts : list bytes) : bytes :=
  String.concat sep parts.

(** [s.startswith(p)]. *)
Definition startswith (s p : bytes) : bool := String.prefix p s.

(** [s.endswith(suf)]. *)
Definition endswith (s suf : bytes) : bool :=
  Nat.leb (String.length suf) (String.length s) &&
  String.eqb
    (String.substring (String.length s - String.length suf)
                      (String.length suf) s)
    suf.

(** [s.count(c)] for a one-byte [c]. *)
Fixpoint count (c : ascii) (s : bytes) : nat :=
  match s with
  | EmptyString => 0
  | String d rest => (if Ascii.eqb d c then 1 else 0) + count c rest
  end.

(** [sub in s]. *)
Fixpoint contains (sub s : bytes) : bool :=
  String.prefix sub s ||
  match s with
  | EmptyString => false
  | String _ rest => contains sub rest
  end.

(** [x in xs] for a list of byte strings. *)
Definition mem (x : bytes) (xs : list bytes) : bool :=
  existsb (String.eqb x) xs.

End Bytes.

(** A tuple (or list) of labels, and equality on them. *)
Definition labels : Type := list bytes.

Fixpoint labels_eqb (a b : labels) : bool :=
  match a, b with
  | [], [] => true
  | x :: a', y :: b' => String.eqb x y && labels_eqb a' b'
  | _, _ => false
  end.

(** [suffix in suffixes]. *)
Definition labels_mem (x : labels) (xs : list labels) : bool :=
  existsb (labels_eqb x) xs.

(** [parts[-k:]]: the last [k] elements; the whole list when [k] is 0
    (since [-0] is [0]) or exceeds the length. *)
Definition slice_from_neg {A} (k : nat) (parts : list A) : list A :=
  match k with
  | 0 => parts
  | _ => skipn (length parts - k) parts
  end.

(** [parts[:-k]]: all but the last [k] elements; empty when [k] is 0 or
    exceeds the length. *)
Definition slice_to_neg {A} (k : nat) (parts : list A) : list A :=
  match k with
  | 0 => []
  | _ => firstn (length parts - k) parts
  end.

(** ** [insort] *)

(** The [for] loop of [insort]: insert before the first element whose key
    is greater than the new key, append when the loop falls through. *)
Fixpoint insort_scan {A} (key : A -> Z) (new_key : Z) (new_element : A)
         (target_list : list A) : list A :=
  match target_list with
  | [] => [new_element]
  | existing_element :: rest =>
      if (key existing_element >? new_key)%Z
      then new_element :: existing_element :: rest
      else existing_element :: insort_scan key new_key new_element rest
  end.

Definition insort {A} (target_list : list A) (new_element : A)
           (key : A -> Z) : list A :=
  match target_list with
  | [] => [new_element]
  | _ => insort_scan key (key new_element) new_element target_list
  end.

(** ** DNS data *)

(** [dns.A] and [dns.AAAA] are the integer type codes of twisted.names. *)
Definition dns_A : N := 1%N.
Definition dns_AAAA : N := 28%N.

Record Query : Type := mkQuery { q_name : bytes; q_type : N }.

Definition set_name (q : Query) (n : bytes) : Query :=
  mkQuery n (q_type q).
Definition set_type (q : Query) (t : N) : Query :=
  mkQuery (q_name q) t.

Inductive Payload : Type :=
| Record_A (address : bytes)
| Record_AAAA (address : bytes)
| Record_other (type : N) (data : bytes).

Record RRHeader : Type := mkRR { rr_name : bytes; rr_payload : Payload }.

Definition set_rr_name (n : bytes) (rr : RRHeader) : RRHeader :=
  mkRR n (rr_payload rr).

Definition rr_type (rr : RRHeader) : N :=
  match rr_payload rr with
  | Record_A _ => dns_A
  | Record_AAAA _ => dns_AAAA
  | Record_other t _ => t
  end.

(** The triple [(answers, authority, additional)]. *)
Record DNSResult : Type :=
  mkResult { answers : list RRHeader;
             authority : list RRHeader;
             additional : list RRHeader }.

Inductive Failure : Type :=
| DomainError (message : bytes)
| AuthoritativeDomainError (message : bytes)
| UpstreamError (message : bytes).

(** A fired [Deferred]. *)
Inductive Deferred : Type :=
| Succeeded (result : DNSResult)
| Failed (failure : Failure).

(** Timeouts are lists of durations, kept in milliseconds: [(1, 1)] is
    [[1000; 1000]] and [[0.1]] is [[100]]; [None] is Python's [None]. *)
Definition Timeout : Type := option (list N).
Definition timeout_1_1 : Timeout := Some [1000%N; 1000%N].
Definition timeout_kube : Timeout := Some [100%N].

(** ** The resolver object and its collaborators *)

(** The fields of [LocalResolver] that [query] reads.  [kubedns] and
    [fallback] are the two upstream clients and live in [Upstreams]. *)
Record LocalResolver : Type :=
  mkResolver { noloop : bool;
               local_names : list bytes;
               namespace : bytes;
               suffixes : list labels }.

Definition set_suffixes (self : LocalResolver) (l : list labels)
  : LocalResolver :=
  mkResolver (noloop self) (local_names self) (namespace self) l.

(** [LocalResolver.__init__]: the fields that do not depend on the
    network. *)
Definition init (telepresence_nameserver : option bytes) (namespace : bytes)
           (telepresence_local_names : bytes) : LocalResolver :=
  mkResolver
    (match telepresence_nameserver with Some _ => true | None => false end)
    (match telepresence_local_names with
     | EmptyString => []
     | _ => Bytes.split "," telepresence_local_names
     end)
    namespace [].

(** What [socket.gethostbyname_ex] gives: addresses, or an exception. *)
Inductive Resolved : Type :=
| Addresses (ips : list bytes)
| Raised (message : bytes).

(** The upstream name sources: [client.Resolver(servers=[(kubedns, 53)])],
    [self.fallback] and the module-level [resolve]. *)
Record Upstreams : Type :=
  mkUpstreams { kubedns_query : Query -> Timeout -> Deferred;
                fallback_query : Query -> Timeout -> Deferred;
                resolve : bytes -> Resolved }.

Inductive event : Type :=
| KubeQuery (q : Query) (timeout : Timeout)
| FallbackQuery (q : Query) (timeout : Timeout)
| NativeResolve (hostname : bytes).

(** Computations over the resolver object, with the trace of upstream
    calls.  [None] is a run that did not finish within the recursion
    budget of the model. *)
Definition M (A : Type) : Type :=
  LocalResolver -> option (A * LocalResolver * list event).

Definition ret {A} (a : A) : M A := fun self => Some (a, self, []).

Definition bind {A B} (m : M A) (k : A -> M B) : M B :=
  fun self =>
    match m self with
    | None => None
    | Some (a, self1, t1) =>
        match k a self1 with
        | None => None
        | Some (b, self2, t2) => Some (b, self2, t1 ++ t2)
        end
    end.

Notation "x <- m ;; k" := (bind m (fun x => k))
  (at level 61, m at next level, right associativity).

Definition get_self : M LocalResolver := fun self => Some (self, self, []).
Definition put_suffixes (l : list labels) : M unit :=
  fun self => Some (tt, set_suffixes self l, []).
Definition out_of_budget {A} : M A := fun _ => None.

(** [d.addCallback(f)] and [d.addErrback(g)] on a fired Deferred. *)
Definition addCallback (d : Deferred) (callback : DNSResult -> M Deferred)
  : M Deferred :=
  match d with
  | Succeeded result => callback result
  | Failed failure => ret (Failed failure)
  end.

Definition addErrback (d : Deferred) (errback : Failure -> M Deferred)
  : M Deferred :=
  match d with
  | Succeeded result => ret (Succeeded result)
  | Failed failure => errback failure
  end.

(** ** The methods of [LocalResolver] *)

(** [_got_ips]. *)
Definition got_ips (name : bytes) (ips : list bytes)
           (record_type : bytes -> Payload) : Deferred :=
  Succeeded (mkResult (map (fun ip => mkRR name (record_type ip)) ips)
                      [] []).

(** [_got_error]. *)
Definition got_error (message : bytes) : Deferred :=
  Failed (DomainError message).

(** [_identify_sanity_check]. *)
Definition identify_sanity_check (real_name : bytes) : option Deferred :=
  if Bytes.startswith real_name "hellotelepresence"
     && Bytes.endswith real_name "telepresence.io"
  then Some (Failed (AuthoritativeDomainError "Sanity check"))
  else None.

(** The key that [_identify_suffix_probe] passes to [insort]. *)
Definition suffix_key (parts : labels) : Z := (- Z.of_nat (length parts))%Z.

(** The body of the probe branch of [_identify_suffix_probe] that updates
    [self.suffixes]. *)
Definition record_suffix (known : list labels) (suffix : labels)
  : list labels :=
  if negb (labels_mem suffix known)
  then insort known suffix suffix_key
  else known.

(** [_strip_search_suffix]. *)
Fixpoint strip_search_suffix (known : list labels) (parts : labels)
  : labels :=
  match known with
  | [] => parts
  | suffix :: rest =>
      if labels_eqb (slice_from_neg (length suffix) parts) suffix
      then slice_to_neg (length suffix) parts
      else strip_search_suffix rest parts
  end.

(** Lines 140-153 of [_no_loop_kube_query]: the copy of the query that is
    sent to Kube DNS, with its name completed. *)
Definition kube_query_for (self : LocalResolver) (query : Query) : Query :=
  if negb (Bytes.endswith (q_name query) ".local") then
    let parts := Bytes.split "." (q_name query) in
    let parts := if (length parts =? 1)%nat then parts ++ [namespace self]
                 else parts in
    if (length parts =? 2)%nat
    then set_name query (Bytes.join "." parts ++ ".svc.cluster.local")%string
    else if String.eqb (last parts EmptyString) "svc"
         then set_name query (Bytes.join "." (parts ++ ["cluster.local"]))
         else query
  else query.

(** [fix_names] inside [_no_loop_kube_query]. *)
Definition fix_names (real_name : bytes) (result : DNSResult) : DNSResult :=
  mkResult (map (set_rr_name real_name) (answers result))
           (authority result) (additional result).

(** The condition of lines 276-281 of [query]. *)
Definition cluster_safe (local_names : list bytes) (name : bytes) : bool :=
  (Bytes.count "." name =? 0)%nat || (Bytes.count "." name =? 1)%nat
  || Bytes.endswith name ".local"
  || Bytes.contains ".svc" name
  || Bytes.mem name local_names
  || existsb (fun local => Bytes.endswith name ("." ++ local)%string)
             local_names.

(** Lines 237-238 of [query]: the real name defaults to the name asked. *)
Definition real_name_of (real_name : option bytes) (query : Query) : bytes :=
  match real_name with
  | None => q_name query
  | Some n => n
  end.

Section Resolver.

Variable net : Upstreams.

Definition call_kubedns (q : Query) (timeout : Timeout) : M Deferred :=
  fun self => Some (kubedns_query net q timeout, self, [KubeQuery q timeout]).

Definition call_fallback (q : Query) (timeout : Timeout) : M Deferred :=
  fun self =>
    Some (fallback_query net q timeout, self, [FallbackQuery q timeout]).

Definition call_resolve (hostname : bytes) : M Resolved :=
  fun self => Some (resolve net hostname, self, [NativeResolve hostname]).

(** [_no_loop_kube_query]. *)
Definition no_loop_kube_query (query : Query) (timeout : Timeout)
           (real_name : bytes) : M Deferred :=
  self <- get_self ;;
  let new_query := kube_query_for self query in
  d <- call_kubedns new_query timeout_kube ;;
  d <- addCallback d (fun result =>
                        ret (Succeeded (fix_names real_name result))) ;;
  addErrback d (fun err => call_fallback query timeout).

(** [_identify_suffix_probe]; [parts] is never empty, being the result
    of a [split]. *)
Definition identify_suffix_probe (real_name : bytes) (parts : labels)
  : M (option Deferred) :=
  match parts with
  | [] => ret None
  | first :: rest =>
      if Bytes.startswith first "hellotelepresence" then
        self <- get_self ;;
        _ <- put_suffixes (record_suffix (suffixes self) rest) ;;
        ret (Some (got_ips real_name ["127.0.0.1"] Record_A))
      else ret None
  end.

(** [_handle_search_suffix]; [rec] is [self.query].  The recursive call
    works on a deep copy of the query, so whatever it does to its
    argument is not seen by the [failed] errback.  The model covers the
    self-calls that return: one that exhausts the recursion budget ends
    the run with [None].  (In Python an endless strip loop ends in a
    [RecursionError], which [maybeDeferred] turns into a failure for the
    errback; no property below speaks of such a run.) *)
Definition handle_search_suffix
           (rec : Query -> Timeout -> option bytes -> M (Deferred * Query))
           (query : Query) (parts : labels) (timeout : Timeout)
  : M (option Deferred) :=
  self <- get_self ;;
  let stem := strip_search_suffix (suffixes self) parts in
  if negb (labels_eqb stem parts) then
    let new_query := set_name query (Bytes.join "." stem) in
    r <- rec new_query timeout_1_1 (Some (q_name query)) ;;
    d <- addErrback (fst r) (fun f => call_fallback query timeout) ;;
    ret (Some d)
  else ret None.

(** Lines 260-305 of [query]: the dispatch on the query type once no
    special suffix applied; [rec] is [self.query].  The result is the
    Deferred together with the query object as the call leaves it: the
    AAAA branch assigns to [query.type] in place before it calls
    [self.query] on the same object. *)
Definition type_dispatch
           (rec : Query -> Timeout -> option bytes -> M (Deferred * Query))
           (query : Query) (timeout : Timeout) (real_name : bytes)
  : M (Deferred * Query) :=
  if (q_type query =? dns_A)%N then
    self <- get_self ;;
    if noloop self then
      if cluster_safe (local_names self) (q_name query)
      then
        d <- no_loop_kube_query query timeout real_name ;;
        ret (d, query)
      else
        d <- call_fallback query timeout ;;
        ret (d, query)
    else
      r <- call_resolve (q_name query) ;;
      match r with
      | Addresses ips => ret (got_ips real_name ips Record_A, query)
      | Raised message => ret (got_error message, query)
      end
  else if (q_type query =? dns_AAAA)%N then
    rec (set_type query dns_A) timeout (Some real_name)
  else
    d <- call_fallback query timeout ;;
    ret (d, query).

(** [query]; [fuel] bounds the depth of the self-calls. *)
Fixpoint query (fuel : nat) (query_ : Query) (timeout : Timeout)
         (real_name : option bytes) : M (Deferred * Query) :=
  match fuel with
  | O => out_of_budget
  | S fuel' =>
      let real_name := real_name_of real_name query_ in
      let parts := Bytes.split "." (q_name query_) in
      match identify_sanity_check real_name with
      | Some result => ret (result, query_)
      | None =>
          result <- identify_suffix_probe real_name parts ;;
          match result with
          | Some result => ret (result, query_)
          | None =>
              result <- handle_search_suffix (query fuel') query_ parts
                                             timeout ;;
              match result with
              | Some result => ret (result, query_)
              | None => type_dispatch (query fuel') query_ timeout real_name
              end
          end
      end
  end.

End Resolver.

(** ** Vocabulary of the properties *)

(** The first label of a name, which [_identify_suffix_probe] inspects. *)
Definition first_label (name : bytes) : bytes :=
  hd EmptyString (Bytes.split "." name).

(** The calls that reached the fallback resolver, in order. *)
Fixpoint fallback_calls (trace : list event) : list (Query * Timeout) :=
  match trace with
  | [] => []
  | FallbackQuery q t :: rest => (q, t) :: fallback_calls rest
  | _ :: rest => fallback_calls rest
  end.

(** The calls that reached the cluster resolver, in order. *)
Fixpoint kube_calls (trace : list event) : list (Query * Timeout) :=
  match trace with
  | [] => []
  | KubeQuery q t :: rest => (q, t) :: kube_calls rest
  | _ :: rest => kube_calls rest
  end.

(** The suffix list after the probes carried the given suffixes, in that
    order, to a fresh resolver. *)
Definition learned (arrivals : list labels) : list labels :=
  fold_left record_suffix arrivals [].

(** Longest suffixes first: label counts never increase along the list. *)
Definition longest_first (known : list labels) : Prop :=
  StronglySorted (fun a b => length b <= length a) known.

(** Label counts strictly decrease along the list. *)
Definition strictly_longest_first (known : list labels) : Prop :=
  StronglySorted (fun a b => length b < length a) known.

(** The distinct elements of a list, each at its first occurrence. *)
Definition first_arrivals (arrivals : list labels) : list labels :=
  fold_left (fun seen s => if labels_mem s seen then seen else seen ++ [s])
            arrivals [].

Definition with_label_count (k : nat) (l : list labels) : list labels :=
  filter (fun s => (length s =? k)%nat) l.

(** Every answer record carries the given name. *)
Definition named (name : bytes) (result : DNSResult) : Prop :=
  Forall (fun rr => rr_name rr = name) (answers result).

(** The result is what the fallback resolver returned to one of the calls
    of the trace. *)
Definition from_fallback (net : Upstreams) (trace : list event)
           (result : DNSResult) : Prop :=
  exists q t, In (FallbackQuery q t) trace
              /\ fallback_query net q t = Succeeded result.

(** What a run of [query] leaves behind apart from the query object. *)
Definition outcome_of (run : option (Deferred * Query * LocalResolver
                                     * list event))
  : option (Deferred * LocalResolver * list event) :=
  match run with
  | None => None
  | Some ((d, _), self, trace) => Some (d, self, trace)
  end.

(** The name has the shape that the spec calls cluster-safe, with the
    [.svc] condition read as the code reads it: the bytes [.svc] occur
    somewhere in the name. *)
Definition cluster_safe_shape (local_names : list bytes) (name : bytes)
  : Prop :=
  Bytes.count "." name = 0 \/ Bytes.count "." name = 1
  \/ (exists p, name = (p ++ ".local")%string)
  \/ (exists p r, name = (p ++ ".svc" ++ r)%string)
  \/ In name local_names
  \/ (exists local p, In local local_names
                      /\ name = (p ++ "." ++ local)%string).

(** ** Concrete resolvers and upstreams used in the examples *)

Module Scenario.

Definition A_query (name : bytes) : Query := mkQuery name dns_A.
Definition AAAA_query (name : bytes) : Query := mkQuery name dns_AAAA.

(** An upstream that never answers. *)
Definition silent : Query -> Timeout -> Deferred :=
  fun _ _ => Failed (UpstreamError "timeout").

(** An upstream that answers every A query with one A record and every
    AAAA query with one AAAA record, under the name asked. *)
Definition echo : Query -> Timeout -> Deferred :=
  fun q _ =>
    if (q_type q =? dns_A)%N
    then Succeeded (mkResult [mkRR (q_name q) (Record_A "10.0.0.7")] [] [])
    else if (q_type q =? dns_AAAA)%N
    then Succeeded (mkResult [mkRR (q_name q) (Record_AAAA "fd00::7")] [] [])
    else Failed (UpstreamError "no data").

(** An upstream that knows one name only and answers like [echo] for it. *)
Definition only (name : bytes) : Query -> Timeout -> Deferred :=
  fun q t =>
    if String.eqb (q_name q) name then echo q t
    else Failed (UpstreamError "no such domain").


Definition no_host : bytes -> Resolved :=
  fun _ => Raised "Name or service not known".

(** Tunnel-mode resolver in namespace [bar], nothing learned yet. *)
Definition tunnel : LocalResolver := init (Some "10.0.0.2") "bar" "".

(** The same after the probe [hellotelepresenceABC.corp.example]. *)
Definition tunnel_corp : LocalResolver :=
  set_suffixes tunnel [["corp"; "example"]].

(** The same after probes that carried [a.b] and [c]. *)
Definition tunnel_two : LocalResolver :=
  set_suffixes tunnel [["a"; "b"]; ["c"]].

(** Cluster DNS down, fallback answering. *)
Definition kube_down : Upstreams := mkUpstreams silent echo no_host.
(** Cluster DNS answering, fallback silent. *)
Definition kube_up : Upstreams := mkUpstreams echo silent no_host.
(** Cluster DNS down, fallback knowing [s.corp.example] only. *)
Definition corp_only : Upstreams :=
  mkUpstreams silent (only "s.corp.example") no_host.
(** Nothing answers. *)
Definition all_down : Upstreams := mkUpstreams silent silent no_host.

End Scenario.

(** ** [get_resolv_conf_namservers] and the cluster nameserver *)

Module ResolvConf.

(** The file is read as text.  The model covers files of 7-bit
    characters, which is what resolv.conf holds; the properties below
    assume it where the answer depends on it. *)
Definition seven_bit (c : ascii) : bool := (nat_of_ascii c <? 128)%nat.

Fixpoint all_seven_bit (s : string) : bool :=
  match s with
  | EmptyString => true
  | String c rest => seven_bit c && all_seven_bit rest
  end.

(** White space for [str.split()] among 7-bit characters: tab to
    carriage return (9-13), the separators 28-31 and the space. *)
Definition is_space (c : ascii) : bool :=
  let n := nat_of_ascii c in
  ((9 <=? n) && (n <=? 13))%nat || ((28 <=? n) && (n <=? 32))%nat.

Definition lower_char (c : ascii) : ascii :=
  let n := nat_of_ascii c in
  if ((65 <=? n) && (n <=? 90))%nat then ascii_of_nat (n + 32) else c.

(** [s.lower()]. *)
Fixpoint lower (s : string) : string :=
  match s with
  | EmptyString => EmptyString
  | String c rest => String (lower_char c) (lower rest)
  end.

(** [s.split()]: the maximal runs of characters that are not white
    space. *)
Fixpoint split_whitespace (s : string) : list string :=
  match s with
  | EmptyString => []
  | String c rest =>
      if is_space c then split_whitespace rest
      else match rest with
           | EmptyString => [String c EmptyString]
           | String d _ =>
               if is_space d
               then String c EmptyString :: split_whitespace rest
               else match split_whitespace rest with
                    | [] => [String c EmptyString]
                    | word :: words => String c word :: words
                    end
           end
  end.

(** The characters of a string, and tests on all of them. *)
Fixpoint chars (s : string) : list ascii :=
  match s with
  | EmptyString => []
  | String c rest => c :: chars rest
  end.

Fixpoint all_chars (p : ascii -> bool) (s : string) : bool :=
  match s with
  | EmptyString => true
  | String c rest => p c && all_chars p rest
  end.

(** A capital letter A-Z. *)
Definition upper_case (c : ascii) : bool :=
  ((65 <=? nat_of_ascii c) && (nat_of_ascii c <=? 90))%nat.

(** The body of the loop over the lines of the file. *)
Definition scan_line (result : list string) (line : string) : list string :=
  match split_whitespace (lower line) with
  | keyword :: address :: _ =>
      if String.eqb keyword "nameserver" then result ++ [address]
      else result
  | _ => result
  end.

(** [get_resolv_conf_namservers], on the lines of /etc/resolv.conf. *)
Definition get_resolv_conf_namservers (lines : list string) : list string :=
  fold_left scan_line lines [].

(** What [LocalResolver(...)] gives: the object, with [self.kubedns] when
    it is set, or the [IndexError] of [get_resolv_conf_namservers()[0]]. *)
Inductive Constructed : Type :=
| Built (self : LocalResolver) (kubedns : option string)
| IndexError.

(** [LocalResolver.__init__] with its reading of resolv.conf. *)
Definition construct (resolv_conf : list string)
           (telepresence_nameserver : option bytes) (namespace : bytes)
           (telepresence_local_names : bytes) : Constructed :=
  let self := init telepresence_nameserver namespace
                   telepresence_local_names in
  if noloop self then
    match get_resolv_conf_namservers resolv_conf with
    | [] => IndexError
    | first :: _ => Built self (Some first)
    end
  else Built self None.

End ResolvConf.

(** ** More vocabulary *)

(** The calls of the blocking [resolve], in order. *)
Fixpoint native_calls (trace : list event) : list bytes :=
  match trace with
  | [] => []
  | NativeResolve hostname :: rest => hostname :: native_calls rest
  | _ :: rest => native_calls rest
  end.

(** What a finished call of [query] gives: the Deferred, the query
    object as it is left, the resolver as it is left and the trace. *)
Definition Run : Type := (Deferred * Query * LocalResolver * list event)%type.
Definition run_query (run : Run) : Query := snd (fst (fst run)).
Definition run_self (run : Run) : LocalResolver := snd (fst run).
Definition run_trace (run : Run) : list event := snd run.

(** A label, or a name, without a dot. *)
Definition dot_free (s : bytes) : Prop := Bytes.count "." s = 0.

(** The label list ends with the given labels. *)
Definition ends_with (parts tail : labels) : Prop :=
  exists stem, parts = stem ++ tail.

(** Sorted by key, smallest first, as [insort] expects its list. *)
Definition sorted_by {A} (key : A -> Z) (l : list A) : Prop :=
  StronglySorted (fun a b => (key a <= key b)%Z) l.

(** ** Facts about the [bytes] methods *)

Module BytesFacts.
Import Bytes.

Lemma split_nonempty sep s : split sep s <> [].
Proof.
  destruct s as [|c rest]; simpl; [discriminate|].
  destruct (Ascii.eqb c sep); [discriminate|].
  destruct (split sep rest); discriminate.
Qed.

Lemma join_cons sep x xs :
  xs <> [] -> join sep (x :: xs) = (x ++ sep ++ join sep xs)%string.
Proof. destruct xs; [congruence | reflexivity]. Qed.

Lemma join_split sep s : join (String sep EmptyString) (split sep s) = s.
Proof.
  induction s as [|c rest IH]; [reflexivity|].
  pose proof (split_nonempty sep rest) as NE.
  cbn [split]. destruct (Ascii.eqb c sep) eqn:E.
  - apply Ascii.eqb_eq in E; subst c.
    rewrite join_cons, IH by assumption. reflexivity.
  - destruct (split sep rest) as [|l ls]; [congruence|].
    rewrite <- IH. destruct ls; reflexivity.
Qed.

Lemma length_append (a b : string) :
  String.length (a ++ b)%string = String.length a + String.length b.
Proof. induction a; simpl; auto. Qed.

Lemma append_nil_r (a : string) : (a ++ "")%string = a.
Proof. induction a; simpl; congruence. Qed.

Lemma append_assoc (a b c : string) :
  ((a ++ b) ++ c)%string = (a ++ (b ++ c))%string.
Proof. induction a; simpl; congruence. Qed.

Lemma prefix_spec p s :
  String.prefix p s = true <-> exists r, s = (p ++ r)%string.
Proof.
  revert s; induction p as [|c p IH]; intros s; simpl.
  - split; [intros _; now exists s | intros _; now destruct s].
  - destruct s as [|d s]; simpl.
    + split; [discriminate | intros [r H]; discriminate].
    + destruct (ascii_dec c d) as [->|N].
      * rewrite IH. split; intros [r H]; exists r; congruence.
      * split; [discriminate | intros [r H]; congruence].
Qed.

Lemma substring_all s : String.substring 0 (String.length s) s = s.
Proof. induction s; simpl; congruence. Qed.

Lemma substring_skip p n r :
  String.substring (String.length p) n (p ++ r)%string
  = String.substring 0 n r.
Proof. induction p; simpl; auto. Qed.

Lemma substring_split n s :
  n <= String.length s ->
  s = (String.substring 0 n s
       ++ String.substring n (String.length s - n) s)%string.
Proof.
  revert n; induction s as [|c s IH]; intros n L; simpl in *.
  - destruct n; reflexivity.
  - destruct n as [|n]; simpl.
    + now rewrite substring_all.
    + f_equal. apply IH. lia.
Qed.

Lemma endswith_spec s suf :
  endswith s suf = true <-> exists p, s = (p ++ suf)%string.
Proof.
  unfold endswith. rewrite andb_true_iff, Nat.leb_le, String.eqb_eq.
  split.
  - intros [L E].
    exists (String.substring 0 (String.length s - String.length suf) s).
    pose proof (substring_split (String.length s - String.length suf) s
                  ltac:(lia)) as H.
    replace (String.length s - (String.length s - String.length suf))
      with (String.length suf) in H by lia.
    now rewrite E in H.
  - intros [p ->]. rewrite length_append. split; [lia|].
    replace (String.length p + String.length suf - String.length suf)
      with (String.length p) by lia.
    rewrite substring_skip. apply substring_all.
Qed.

Lemma contains_spec sub s :
  contains sub s = true <-> exists a b, s = (a ++ sub ++ b)%string.
Proof.
  induction s as [|c s IH]; cbn [contains].
  - rewrite orb_false_r, prefix_spec. split.
    + intros [r H]. now exists EmptyString, r.
    + intros [a [b H]]. destruct a; simpl in H; [now exists b|discriminate].
  - rewrite orb_true_iff, prefix_spec, IH. split.
    + intros [[r H]|[a [b H]]].
      * now exists EmptyString, r.
      * exists (String c a), b. simpl. congruence.
    + intros [a [b H]]. destruct a as [|d a]; simpl in H.
      * left. now exists b.
      * right. exists a, b. congruence.
Qed.

Lemma mem_spec x xs : mem x xs = true <-> In x xs.
Proof.
  unfold mem. rewrite existsb_exists. split.
  - intros [y [I E]]. apply String.eqb_eq in E. now subst.
  - intros I. exists x. split; [assumption|apply String.eqb_refl].
Qed.

End BytesFacts.

(** ** Facts about label lists and the sorted suffix list *)

Lemma labels_eqb_eq a b : labels_eqb a b = true <-> a = b.
Proof.
  revert b; induction a as [|x a IH]; intros [|y b]; simpl;
    try (split; [discriminate|congruence]); [tauto|].
  rewrite andb_true_iff, String.eqb_eq, IH.
  split; [intros [-> ->]; reflexivity | intros H; now inversion H].
Qed.

Lemma labels_eqb_refl a : labels_eqb a a = true.
Proof. now apply labels_eqb_eq. Qed.

Lemma labels_eqb_neq a b : labels_eqb a b = false <-> a <> b.
Proof.
  rewrite <- labels_eqb_eq. destruct (labels_eqb a b); split; congruence.
Qed.

Lemma labels_mem_In x xs : labels_mem x xs = true <-> In x xs.
Proof.
  unfold labels_mem. rewrite existsb_exists. split.
  - intros [y [I E]]. apply labels_eqb_eq in E. now subst.
  - intros I. exists x. split; [assumption|apply labels_eqb_refl].
Qed.

Lemma labels_mem_not_In x xs : labels_mem x xs = false <-> ~ In x xs.
Proof.
  rewrite <- labels_mem_In. destruct (labels_mem x xs); split; congruence.
Qed.

Lemma suffix_key_gtb e x :
  (suffix_key e >? suffix_key x)%Z = (length e <? length x)%nat.
Proof.
  unfold suffix_key.
  destruct (Nat.ltb_spec (length e) (length x));
    [apply Z.gtb_lt | rewrite Z.gtb_ltb; apply Z.ltb_ge]; lia.
Qed.

Lemma insort_is_scan {A} (l : list A) x key :
  insort l x key = insort_scan key (key x) x l.
Proof. now destruct l. Qed.

Lemma insort_scan_perm {A} (key : A -> Z) k x l :
  Permutation (x :: l) (insort_scan key k x l).
Proof.
  induction l as [|e rest IH]; simpl; [reflexivity|].
  destruct (key e >? k)%Z; [reflexivity|].
  rewrite perm_swap. now constructor.
Qed.

Lemma insort_perm {A} (l : list A) x key :
  Permutation (x :: l) (insort l x key).
Proof. rewrite insort_is_scan. apply insort_scan_perm. Qed.

Lemma insort_longest_first l x :
  longest_first l -> longest_first (insort l x suffix_key).
Proof.
  rewrite insort_is_scan. unfold longest_first.
  induction 1 as [|e rest SS IH F]; simpl.
  - repeat constructor.
  - rewrite suffix_key_gtb. destruct (Nat.ltb_spec (length e) (length x)).
    + constructor; [now constructor|].
      constructor; [lia|]. eapply Forall_impl; [|exact F].
      simpl; intros; lia.
    + constructor; [exact IH|].
      eapply Permutation_Forall; [apply insort_scan_perm|].
      constructor; assumption.
Qed.

Lemma with_label_count_shorter k l :
  Forall (fun b => length b < k) l -> with_label_count k l = [].
Proof.
  induction 1 as [|e rest L F IH]; simpl; [reflexivity|].
  destruct (Nat.eqb_spec (length e) k); [lia|assumption].
Qed.

Lemma insort_with_label_count k l x :
  longest_first l ->
  with_label_count k (insort l x suffix_key)
  = if (length x =? k)%nat then with_label_count k l ++ [x]
    else with_label_count k l.
Proof.
  rewrite insort_is_scan. unfold longest_first.
  induction 1 as [|e rest SS IH F].
  - simpl. now destruct (length x =? k)%nat.
  - cbn [insort_scan]. rewrite suffix_key_gtb.
    destruct (Nat.ltb_spec (length e) (length x)) as [L|L].
    + change (with_label_count k (x :: e :: rest))
        with (if (length x =? k)%nat then x :: with_label_count k (e :: rest)
              else with_label_count k (e :: rest)).
      destruct (Nat.eqb_spec (length x) k) as [E|E]; [|reflexivity].
      rewrite with_label_count_shorter; [reflexivity|].
      constructor; [lia|]. eapply Forall_impl; [|exact F].
      simpl; intros; lia.
    + set (scanned := insort_scan suffix_key (suffix_key x) x rest) in *.
      change (with_label_count k (e :: scanned))
        with (if (length e =? k)%nat
              then e :: with_label_count k scanned
              else with_label_count k scanned).
      rewrite IH. simpl.
      destruct (length e =? k)%nat, (length x =? k)%nat; reflexivity.
Qed.

Lemma record_suffix_known known s :
  In s known -> record_suffix known s = known.
Proof.
  intros I. unfold record_suffix.
  now rewrite (proj2 (labels_mem_In s known) I).
Qed.

Lemma record_suffix_new known s :
  ~ In s known -> Permutation (s :: known) (record_suffix known s).
Proof.
  intros I. unfold record_suffix.
  rewrite (proj2 (labels_mem_not_In s known) I). apply insort_perm.
Qed.

Lemma record_suffix_In known s x :
  In x (record_suffix known s) <-> x = s \/ In x known.
Proof.
  destruct (labels_mem s known) eqn:E.
  - rewrite record_suffix_known by now apply labels_mem_In.
    apply labels_mem_In in E. split; [tauto|]. intros [->|]; assumption.
  - apply labels_mem_not_In in E.
    pose proof (record_suffix_new known s E) as P. split; intros H.
    + apply Permutation_sym in P.
      apply (Permutation_in _ P) in H. destruct H; auto.
    + apply (Permutation_in _ P). destruct H; [left|right]; auto.
Qed.

Lemma record_suffix_longest_first known s :
  longest_first known -> longest_first (record_suffix known s).
Proof.
  intros S. unfold record_suffix.
  destruct (labels_mem s known); simpl;
    [assumption | now apply insort_longest_first].
Qed.

Lemma record_suffix_NoDup known s :
  NoDup known -> NoDup (record_suffix known s).
Proof.
  intros N. destruct (labels_mem s known) eqn:E.
  - rewrite record_suffix_known by now apply labels_mem_In. assumption.
  - apply labels_mem_not_In in E.
    eapply Permutation_NoDup; [apply record_suffix_new; exact E|].
    now constructor.
Qed.

Lemma labels_mem_with_label_count s known :
  labels_mem s (with_label_count (length s) known) = labels_mem s known.
Proof.
  apply eq_true_iff_eq. rewrite !labels_mem_In.
  unfold with_label_count. rewrite filter_In, Nat.eqb_eq. tauto.
Qed.

Lemma record_suffix_with_label_count k known s :
  longest_first known ->
  with_label_count k (record_suffix known s)
  = if (length s =? k)%nat
    then if labels_mem s (with_label_count k known)
         then with_label_count k known
         else with_label_count k known ++ [s]
    else with_label_count k known.
Proof.
  intros S. unfold record_suffix.
  destruct (Nat.eqb_spec (length s) k) as [E|E].
  - subst k. rewrite labels_mem_with_label_count.
    destruct (labels_mem s known); simpl; [reflexivity|].
    now rewrite insort_with_label_count, Nat.eqb_refl.
  - destruct (labels_mem s known); simpl; [reflexivity|].
    rewrite insort_with_label_count by assumption.
    now destruct (Nat.eqb_spec (length s) k).
Qed.

Lemma fold_record_longest_first arrivals known :
  longest_first known ->
  longest_first (fold_left record_suffix arrivals known).
Proof.
  revert known; induction arrivals as [|s rest IH]; intros known S; simpl;
    [assumption | apply IH, record_suffix_longest_first, S].
Qed.

Lemma fold_record_NoDup arrivals known :
  NoDup known -> NoDup (fold_left record_suffix arrivals known).
Proof.
  revert known; induction arrivals as [|s rest IH]; intros known S; simpl;
    [assumption | apply IH, record_suffix_NoDup, S].
Qed.

Lemma fold_record_with_label_count k arrivals known :
  longest_first known ->
  with_label_count k (fold_left record_suffix arrivals known)
  = fold_left (fun seen s => if labels_mem s seen then seen else seen ++ [s])
              (with_label_count k arrivals) (with_label_count k known).
Proof.
  revert known; induction arrivals as [|s rest IH]; intros known S;
    [reflexivity|].
  cbn [fold_left]. rewrite IH by now apply record_suffix_longest_first.
  rewrite record_suffix_with_label_count by assumption.
  change (with_label_count k (s :: rest))
    with (if (length s =? k)%nat then s :: with_label_count k rest
          else with_label_count k rest).
  destruct (length s =? k)%nat; reflexivity.
Qed.

Lemma strip_whole_suffix known parts :
  longest_first known -> In parts known -> parts <> [] ->
  strip_search_suffix known parts = [].
Proof.
  unfold longest_first. intros S; induction S as [|s rest SS IH F];
    intros I NE; [contradiction|].
  cbn [strip_search_suffix].
  assert (L : length parts <= length s).
  { destruct I as [->|I]; [lia|].
    rewrite Forall_forall in F. now apply F. }
  destruct (length s) as [|k] eqn:Ls.
  - destruct parts; [congruence | simpl in L; lia].
  - unfold slice_from_neg, slice_to_neg.
    replace (length parts - S k) with 0 by lia. simpl skipn. simpl firstn.
    destruct (labels_eqb parts s) eqn:E; [reflexivity|].
    apply labels_eqb_neq in E.
    destruct I as [->|I]; [congruence|]. now apply IH.
Qed.

(** ** Stepping through [query] *)

Lemma bind_ret_l {A B} (a : A) (k : A -> M B) self :
  bind (ret a) k self = k a self.
Proof.
  unfold bind, ret. now destruct (k a self) as [[[b s2] t2]|].
Qed.

Lemma bind_get_self {B} (k : LocalResolver -> M B) self :
  bind get_self k self = k self self.
Proof.
  unfold bind, get_self. now destruct (k self self) as [[[b s2] t2]|].
Qed.

Ltac run_monad :=
  repeat (rewrite ?bind_ret_l, ?bind_get_self; cbn beta iota).

Section Steps.

Variable net : Upstreams.

Lemma no_loop_kube_query_failed query timeout real_name self f :
  kubedns_query net (kube_query_for self query) timeout_kube = Failed f ->
  no_loop_kube_query net query timeout real_name self
  = Some (fallback_query net query timeout, self,
          [KubeQuery (kube_query_for self query) timeout_kube;
           FallbackQuery query timeout]).
Proof.
  intros K. unfold no_loop_kube_query. run_monad.
  unfold bind, call_kubedns. rewrite K. reflexivity.
Qed.

Lemma no_loop_kube_query_succeeded query timeout real_name self result :
  kubedns_query net (kube_query_for self query) timeout_kube
  = Succeeded result ->
  no_loop_kube_query net query timeout real_name self
  = Some (Succeeded (fix_names real_name result), self,
          [KubeQuery (kube_query_for self query) timeout_kube]).
Proof.
  intros K. unfold no_loop_kube_query. run_monad.
  unfold bind, call_kubedns. rewrite K. reflexivity.
Qed.

Lemma probe_fires real_name parts self :
  Bytes.startswith (hd EmptyString parts) "hellotelepresence" = true ->
  identify_suffix_probe real_name parts self
  = Some (Some (got_ips real_name ["127.0.0.1"] Record_A),
          set_suffixes self (record_suffix (suffixes self) (tl parts)),
          []).
Proof.
  destruct parts as [|first rest]; simpl; [discriminate|].
  intros ->. reflexivity.
Qed.

Lemma probe_skips real_name parts self :
  Bytes.startswith (hd EmptyString parts) "hellotelepresence" = false ->
  identify_suffix_probe real_name parts self = Some (None, self, []).
Proof.
  destruct parts as [|first rest]; simpl; [reflexivity|].
  intros ->. reflexivity.
Qed.

Lemma handle_search_suffix_unchanged rec query parts timeout self :
  strip_search_suffix (suffixes self) parts = parts ->
  handle_search_suffix net rec query parts timeout self
  = Some (None, self, []).
Proof.
  intros E. unfold handle_search_suffix. run_monad.
  rewrite E, labels_eqb_refl. reflexivity.
Qed.

Lemma handle_search_suffix_changed rec query parts timeout self :
  strip_search_suffix (suffixes self) parts <> parts ->
  handle_search_suffix net rec query parts timeout self
  = match rec (set_name query
                 (Bytes.join "." (strip_search_suffix (suffixes self) parts)))
              timeout_1_1 (Some (q_name query)) self with
    | None => None
    | Some ((Succeeded result, _), self1, trace) =>
        Some (Some (Succeeded result), self1, trace)
    | Some ((Failed _, _), self1, trace) =>
        Some (Some (fallback_query net query timeout), self1,
              trace ++ [FallbackQuery query timeout])
    end.
Proof.
  intros E. apply labels_eqb_neq in E.
  unfold handle_search_suffix. run_monad. rewrite E. cbn [negb].
  unfold bind.
  destruct (rec _ _ _ self) as [[[[[r|f] q'] self1] trace]|]; simpl;
    rewrite ?app_nil_r; reflexivity.
Qed.

Lemma query_sanity fuel query_ timeout real_name self d :
  identify_sanity_check (real_name_of real_name query_) = Some d ->
  query net (S fuel) query_ timeout real_name self
  = Some ((d, query_), self, []).
Proof. intros E. cbn [query]. now rewrite E. Qed.

Lemma query_probe fuel query_ timeout real_name self :
  identify_sanity_check (real_name_of real_name query_) = None ->
  Bytes.startswith (first_label (q_name query_)) "hellotelepresence" = true ->
  query net (S fuel) query_ timeout real_name self
  = Some ((got_ips (real_name_of real_name query_) ["127.0.0.1"] Record_A,
           query_),
          set_suffixes self
            (record_suffix (suffixes self)
                           (tl (Bytes.split "." (q_name query_)))),
          []).
Proof.
  intros E P. cbn [query]. rewrite E.
  unfold bind at 1. rewrite (probe_fires _ _ _ P). reflexivity.
Qed.

Lemma query_strips fuel query_ timeout real_name self :
  identify_sanity_check (real_name_of real_name query_) = None ->
  Bytes.startswith (first_label (q_name query_)) "hellotelepresence" = false ->
  strip_search_suffix (suffixes self) (Bytes.split "." (q_name query_))
  <> Bytes.split "." (q_name query_) ->
  query net (S fuel) query_ timeout real_name self
  = match query net fuel
            (set_name query_
               (Bytes.join "."
                  (strip_search_suffix (suffixes self)
                     (Bytes.split "." (q_name query_)))))
            timeout_1_1 (Some (q_name query_)) self with
    | None => None
    | Some ((Succeeded result, _), self1, trace) =>
        Some ((Succeeded result, query_), self1, trace)
    | Some ((Failed _, _), self1, trace) =>
        Some ((fallback_query net query_ timeout, query_), self1,
              trace ++ [FallbackQuery query_ timeout])
    end.
Proof.
  intros E P C. cbn [query]. rewrite E.
  unfold bind at 1. rewrite (probe_skips _ _ _ P).
  unfold bind at 1. rewrite (handle_search_suffix_changed _ _ _ _ _ C).
  destruct (query net fuel _ _ _ self) as [[[[[r|f] q'] self1] trace]|];
    simpl; rewrite ?app_nil_r; reflexivity.
Qed.

Lemma query_dispatches fuel query_ timeout real_name self :
  identify_sanity_check (real_name_of real_name query_) = None ->
  Bytes.startswith (first_label (q_name query_)) "hellotelepresence" = false ->
  strip_search_suffix (suffixes self) (Bytes.split "." (q_name query_))
  = Bytes.split "." (q_name query_) ->
  query net (S fuel) query_ timeout real_name self
  = type_dispatch net (query net fuel) query_ timeout
                  (real_name_of real_name query_) self.
Proof.
  intros E P C. cbn [query]. rewrite E.
  unfold bind at 1. rewrite (probe_skips _ _ _ P).
  unfold bind at 1. rewrite (handle_search_suffix_unchanged _ _ _ _ _ C).
  now destruct (type_dispatch _ _ _ _ _ self) as [[[b s2] t2]|].
Qed.

End Steps.

(** ** The type dispatch, branch by branch *)

Section Dispatch.

Variable net : Upstreams.
Variable rec : Query -> Timeout -> option bytes -> M (Deferred * Query).

Lemma dispatch_tunnel_safe query timeout real_name self :
  q_type query = dns_A -> noloop self = true ->
  cluster_safe (local_names self) (q_name query) = true ->
  type_dispatch net rec query timeout real_name self
  = match no_loop_kube_query net query timeout real_name self with
    | None => None
    | Some (d, self1, trace) => Some ((d, query), self1, trace)
    end.
Proof.
  intros T L S. unfold type_dispatch. rewrite T. cbn [N.eqb dns_A Pos.eqb].
  run_monad. rewrite L, S. unfold bind, ret.
  destruct (no_loop_kube_query _ _ _ _ self) as [[[d s1] t1]|];
    [now rewrite app_nil_r | reflexivity].
Qed.

Lemma dispatch_tunnel_unsafe query timeout real_name self :
  q_type query = dns_A -> noloop self = true ->
  cluster_safe (local_names self) (q_name query) = false ->
  type_dispatch net rec query timeout real_name self
  = Some ((fallback_query net query timeout, query), self,
          [FallbackQuery query timeout]).
Proof.
  intros T L S. unfold type_dispatch. rewrite T. cbn [N.eqb dns_A Pos.eqb].
  run_monad. rewrite L, S. reflexivity.
Qed.

Lemma dispatch_plain query timeout real_name self :
  q_type query = dns_A -> noloop self = false ->
  type_dispatch net rec query timeout real_name self
  = Some ((match resolve net (q_name query) with
           | Addresses ips => got_ips real_name ips Record_A
           | Raised message => got_error message
           end, query), self, [NativeResolve (q_name query)]).
Proof.
  intros T L. unfold type_dispatch. rewrite T. cbn [N.eqb dns_A Pos.eqb].
  run_monad. rewrite L. unfold bind, call_resolve.
  now destruct (resolve net (q_name query)).
Qed.

Lemma dispatch_AAAA query timeout real_name self :
  q_type query = dns_AAAA ->
  type_dispatch net rec query timeout real_name self
  = rec (set_type query dns_A) timeout (Some real_name) self.
Proof. intros T. unfold type_dispatch. now rewrite T. Qed.

Lemma dispatch_other query timeout real_name self :
  q_type query <> dns_A -> q_type query <> dns_AAAA ->
  type_dispatch net rec query timeout real_name self
  = Some ((fallback_query net query timeout, query), self,
          [FallbackQuery query timeout]).
Proof.
  intros TA TB. unfold type_dispatch.
  apply N.eqb_neq in TA, TB. now rewrite TA, TB.
Qed.

End Dispatch.

(** ** The loop guard *)

Lemma cluster_safe_iff local_names name :
  cluster_safe local_names name = true
  <-> cluster_safe_shape local_names name.
Proof.
  unfold cluster_safe, cluster_safe_shape.
  rewrite !orb_true_iff, !Nat.eqb_eq, BytesFacts.endswith_spec,
    BytesFacts.contains_spec, BytesFacts.mem_spec, existsb_exists.
  assert (X : (exists x, In x local_names
                         /\ Bytes.endswith name ("." ++ x)%string = true)
              <-> (exists local p, In local local_names
                                   /\ name = (p ++ "." ++ local)%string)).
  { split.
    - intros [x [I E]]. apply BytesFacts.endswith_spec in E.
      destruct E as [p E]. now exists x, p.
    - intros [x [p [I E]]]. exists x. split; [assumption|].
      apply BytesFacts.endswith_spec. now exists p. }
  rewrite X. tauto.
Qed.

Lemma cluster_safe_not_shape local_names name :
  cluster_safe local_names name = false
  <-> ~ cluster_safe_shape local_names name.
Proof.
  rewrite <- cluster_safe_iff.
  destruct (cluster_safe local_names name); split; congruence.
Qed.

(** C1 (as amended).  In tunnel mode an A query that reaches the type
    dispatch goes to the cluster resolver first exactly when its name is
    cluster-safe, and otherwise goes to the fallback resolver alone.  A
    name is cluster-safe exactly when it has 0 or 1 dot, or ends in
    [.local], or contains the bytes [.svc], or is a configured local name,
    or ends with a dot followed by one.  So [kubernetes], [foo.svc] and
    also [google.com] (one dot) are cluster-safe, and [www.google.com] is
    not when no local name is configured. *)
Theorem loop_guard_routing net fuel query_ timeout real_name self :
  noloop self = true ->
  q_type query_ = dns_A ->
  identify_sanity_check (real_name_of real_name query_) = None ->
  Bytes.startswith (first_label (q_name query_)) "hellotelepresence" = false ->
  strip_search_suffix (suffixes self) (Bytes.split "." (q_name query_))
  = Bytes.split "." (q_name query_) ->
  (cluster_safe (local_names self) (q_name query_) = true
   <-> cluster_safe_shape (local_names self) (q_name query_))
  /\ (cluster_safe_shape (local_names self) (q_name query_) ->
      exists d trace,
        query net (S fuel) query_ timeout real_name self
        = Some ((d, query_), self,
                KubeQuery (kube_query_for self query_) timeout_kube :: trace)
        /\ kube_calls trace = [])
  /\ (~ cluster_safe_shape (local_names self) (q_name query_) ->
      query net (S fuel) query_ timeout real_name self
      = Some ((fallback_query net query_ timeout, query_), self,
              [FallbackQuery query_ timeout]))
  /\ (forall names, cluster_safe names "kubernetes" = true
                    /\ cluster_safe names "foo.svc" = true
                    /\ cluster_safe names "google.com" = true)
  /\ cluster_safe [] "www.google.com" = false.
Proof.
  intros L T E P C.
  split; [apply cluster_safe_iff|].
  split; [|split; [|split; [intros names; repeat split|reflexivity]]].
  - intros S. apply cluster_safe_iff in S.
    rewrite (query_dispatches net fuel _ _ _ _ E P C).
    rewrite (dispatch_tunnel_safe net _ _ _ _ _ T L S).
    destruct (kubedns_query net (kube_query_for self query_) timeout_kube)
      as [r|f] eqn:K.
    + rewrite (no_loop_kube_query_succeeded net _ _ _ _ _ K).
      now eexists _, [].
    + rewrite (no_loop_kube_query_failed net _ _ _ _ _ K).
      now eexists _, [_].
  - intros S. apply cluster_safe_not_shape in S.
    rewrite (query_dispatches net fuel _ _ _ _ E P C).
    apply (dispatch_tunnel_unsafe net _ _ _ _ _ T L S).
Qed.

Lemma loop_guard_routing_witness :
  query Scenario.kube_down 1 (Scenario.A_query "www.google.com") None None
        Scenario.tunnel
  = Some ((Scenario.echo (Scenario.A_query "www.google.com") None,
           Scenario.A_query "www.google.com"),
          Scenario.tunnel,
          [FallbackQuery (Scenario.A_query "www.google.com") None]).
Proof.
  apply (loop_guard_routing Scenario.kube_down 0
           (Scenario.A_query "www.google.com") None None Scenario.tunnel);
    try reflexivity.
  intros S. apply cluster_safe_iff in S. vm_compute in S. discriminate.
Defined.

(** C1, as stated, fails: [google.com] has one dot, so in tunnel mode the
    engine deems it cluster-safe and asks the cluster resolver for
    [google.com.svc.cluster.local] before it asks the fallback resolver. *)
Lemma google_com_asks_cluster_resolver :
  cluster_safe [] "google.com" = true
  /\ query Scenario.kube_down 1 (Scenario.A_query "google.com") None None
           Scenario.tunnel
     = Some ((Scenario.echo (Scenario.A_query "google.com") None,
              Scenario.A_query "google.com"),
             Scenario.tunnel,
             [KubeQuery (Scenario.A_query "google.com.svc.cluster.local")
                        timeout_kube;
              FallbackQuery (Scenario.A_query "google.com") None]).
Proof. split; reflexivity. Qed.

(** The [.svc] condition is on the bytes of the name, not on its labels:
    [a.svcs.b.c] has no label [svc] and is cluster-safe, [svc.a.b.c] has
    one and is not. *)
Lemma svc_condition_is_on_bytes :
  cluster_safe [] "a.svcs.b.c" = true
  /\ ~ In "svc" (Bytes.split "." "a.svcs.b.c")
  /\ cluster_safe [] "svc.a.b.c" = false
  /\ In "svc" (Bytes.split "." "svc.a.b.c").
Proof.
  repeat split; try reflexivity.
  - simpl. intros [H|[H|[H|[H|[]]]]]; discriminate.
  - simpl. now left.
Qed.

(** ** Fallback after a cluster-resolver failure *)

(** C4 (as amended).  When the cluster resolver fails (by timeout or
    otherwise) on the query that [_no_loop_kube_query] sends it, the
    fallback resolver is called exactly once, with the query as it was
    asked and the caller's timeout, and its outcome is the outcome of
    the call; the query rewritten for Kubernetes goes to the cluster
    resolver only.  This is what [query] does in tunnel mode for every
    cluster-safe A query that reaches the type dispatch: one that is no
    sanity check and no probe and whose name suffix stripping leaves
    alone. *)
Theorem cluster_failure_one_fallback_call
        net fuel query_ timeout real_name self failure :
  kubedns_query net (kube_query_for self query_) timeout_kube
  = Failed failure ->
  let trace := [KubeQuery (kube_query_for self query_) timeout_kube;
                FallbackQuery query_ timeout] in
  (forall real, no_loop_kube_query net query_ timeout real self
                = Some (fallback_query net query_ timeout, self, trace))
  /\ fallback_calls trace = [(query_, timeout)]
  /\ kube_calls trace = [(kube_query_for self query_, timeout_kube)]
  /\ (kube_query_for self query_ <> query_ ->
      forall t, ~ In (FallbackQuery (kube_query_for self query_) t) trace)
  /\ (noloop self = true ->
      q_type query_ = dns_A ->
      cluster_safe (local_names self) (q_name query_) = true ->
      identify_sanity_check (real_name_of real_name query_) = None ->
      Bytes.startswith (first_label (q_name query_)) "hellotelepresence"
      = false ->
      strip_search_suffix (suffixes self) (Bytes.split "." (q_name query_))
      = Bytes.split "." (q_name query_) ->
      query net (S fuel) query_ timeout real_name self
      = Some ((fallback_query net query_ timeout, query_), self, trace)).
Proof.
  intros K trace. split; [|split; [|split; [|split]]]; try reflexivity.
  - intros real. apply (no_loop_kube_query_failed net _ _ _ _ _ K).
  - intros N t [H|[H|[]]]; [discriminate | congruence].
  - intros L T S E P C.
    rewrite (query_dispatches net fuel _ _ _ _ E P C).
    rewrite (dispatch_tunnel_safe net _ _ _ _ _ T L S).
    now rewrite (no_loop_kube_query_failed net _ _ _ _ _ K).
Qed.

Lemma cluster_failure_one_fallback_call_witness :
  query Scenario.kube_down 1 (Scenario.A_query "foo.bar") (Some [5000%N])
        None Scenario.tunnel
  = Some ((Scenario.echo (Scenario.A_query "foo.bar") (Some [5000%N]),
           Scenario.A_query "foo.bar"), Scenario.tunnel,
          [KubeQuery (Scenario.A_query "foo.bar.svc.cluster.local")
                     timeout_kube;
           FallbackQuery (Scenario.A_query "foo.bar") (Some [5000%N])]).
Proof.
  apply (cluster_failure_one_fallback_call Scenario.kube_down 0
           (Scenario.A_query "foo.bar") (Some [5000%N]) None Scenario.tunnel
           (UpstreamError "timeout")); reflexivity.
Defined.

(** C4, as stated, fails: [s.corp] has one dot and is cluster-safe, but
    with the suffix [corp] learned it is stripped first; the cluster
    resolver is asked for [s.bar.svc.cluster.local] and fails, and the
    fallback resolver is then called twice, for the stripped query [s]
    and, that failing too, for [s.corp]. *)
Lemma stripped_query_two_fallback_calls :
  cluster_safe [] "s.corp" = true
  /\ exists trace,
      query Scenario.all_down 2 (Scenario.A_query "s.corp") None None
            (set_suffixes Scenario.tunnel [["corp"]])
      = Some ((Failed (UpstreamError "timeout"), Scenario.A_query "s.corp"),
              set_suffixes Scenario.tunnel [["corp"]], trace)
      /\ kube_calls trace
         = [(Scenario.A_query "s.bar.svc.cluster.local", timeout_kube)]
      /\ fallback_calls trace
         = [(Scenario.A_query "s", timeout_1_1);
            (Scenario.A_query "s.corp", None)].
Proof.
  split; [reflexivity|]. eexists. split; [reflexivity|]. now split.
Qed.

(** ** The suffix probe and the sanity check *)

(** C8.  A query whose first label starts with [hellotelepresence] and
    whose real name is not a sanity check is answered at once with the
    single A record 127.0.0.1 under the real name; no upstream is
    contacted, and the labels after the first are recorded as a suffix:
    the list is unchanged when the suffix was known, and gains exactly
    that suffix otherwise. *)
Theorem suffix_probe_answered net fuel query_ timeout real_name self :
  Bytes.startswith (first_label (q_name query_)) "hellotelepresence" = true ->
  Bytes.startswith (real_name_of real_name query_) "hellotelepresence"
  && Bytes.endswith (real_name_of real_name query_) "telepresence.io"
  = false ->
  let suffix := tl (Bytes.split "." (q_name query_)) in
  let self' := set_suffixes self (record_suffix (suffixes self) suffix) in
  query net (S fuel) query_ timeout real_name self
  = Some ((Succeeded
             (mkResult [mkRR (real_name_of real_name query_)
                             (Record_A "127.0.0.1")] [] []),
           query_), self', [])
  /\ In suffix (suffixes self')
  /\ (In suffix (suffixes self) -> suffixes self' = suffixes self)
  /\ (~ In suffix (suffixes self) ->
      Permutation (suffix :: suffixes self) (suffixes self')).
Proof.
  intros P E suffix self'.
  assert (E' : identify_sanity_check (real_name_of real_name query_) = None)
    by (unfold identify_sanity_check; now rewrite E).
  split; [|split; [|split]].
  - apply (query_probe net fuel _ _ _ _ E' P).
  - apply record_suffix_In. now left.
  - apply record_suffix_known.
  - apply record_suffix_new.
Qed.

Lemma suffix_probe_answered_witness :
  query Scenario.all_down 1
        (Scenario.A_query "hellotelepresenceABC.corp.example") None None
        Scenario.tunnel
  = Some ((Succeeded
             (mkResult [mkRR "hellotelepresenceABC.corp.example"
                             (Record_A "127.0.0.1")] [] []),
           Scenario.A_query "hellotelepresenceABC.corp.example"),
          Scenario.tunnel_corp, []).
Proof.
  apply (suffix_probe_answered Scenario.all_down 0
           (Scenario.A_query "hellotelepresenceABC.corp.example") None None
           Scenario.tunnel); reflexivity.
Defined.

(** C9.  A query whose real name starts with [hellotelepresence] and
    ends with [telepresence.io] fails at once with the authoritative
    error [Sanity check]; the suffix list is left as it was and no
    upstream is contacted.  [hellotelepresence123.telepresence.io] is
    such a name. *)
Theorem sanity_check_fails net fuel query_ timeout real_name self :
  Bytes.startswith (real_name_of real_name query_) "hellotelepresence" = true ->
  Bytes.endswith (real_name_of real_name query_) "telepresence.io" = true ->
  query net (S fuel) query_ timeout real_name self
  = Some ((Failed (AuthoritativeDomainError "Sanity check"), query_),
          self, []).
Proof.
  intros P S. apply query_sanity. unfold identify_sanity_check.
  now rewrite P, S.
Qed.

Lemma sanity_check_fails_witness :
  query Scenario.kube_up 1
        (Scenario.A_query "hellotelepresence123.telepresence.io") None None
        Scenario.tunnel
  = Some ((Failed (AuthoritativeDomainError "Sanity check"),
           Scenario.A_query "hellotelepresence123.telepresence.io"),
          Scenario.tunnel, []).
Proof.
  apply (sanity_check_fails Scenario.kube_up 0
           (Scenario.A_query "hellotelepresence123.telepresence.io")
           None None Scenario.tunnel); reflexivity.
Defined.

(** ** Kubernetes name completion *)

Lemma join_snoc sep parts x :
  parts <> [] ->
  Bytes.join sep (parts ++ [x])
  = (Bytes.join sep parts ++ sep ++ x)%string.
Proof.
  induction parts as [|p rest IH]; [congruence|]. intros _.
  destruct rest as [|p' rest'].
  - reflexivity.
  - assert (N : (p' :: rest') ++ [x] <> []) by discriminate.
    change ((p :: p' :: rest') ++ [x]) with (p :: (p' :: rest') ++ [x]).
    rewrite (BytesFacts.join_cons sep p _ N).
    rewrite IH by discriminate.
    rewrite (BytesFacts.join_cons sep p (p' :: rest')) by discriminate.
    now rewrite !BytesFacts.append_assoc.
Qed.

(** C7 (as amended).  With namespace [bar], completion turns [foo],
    [foo.bar] and [foo.bar.svc] into [foo.bar.svc.cluster.local] and
    leaves [foo.bar.local] as it is; and for every name of three or more
    labels that does not end in [.local] and whose last label is [svc],
    it appends [.cluster.local]. *)
Theorem kube_completion self query :
  (forall tunnel names known type,
      let bar := mkResolver tunnel names "bar" known in
      q_name (kube_query_for bar (mkQuery "foo" type))
      = "foo.bar.svc.cluster.local"
      /\ q_name (kube_query_for bar (mkQuery "foo.bar" type))
         = "foo.bar.svc.cluster.local"
      /\ q_name (kube_query_for bar (mkQuery "foo.bar.svc" type))
         = "foo.bar.svc.cluster.local"
      /\ q_name (kube_query_for bar (mkQuery "foo.bar.local" type))
         = "foo.bar.local")
  /\ (Bytes.endswith (q_name query) ".local" = false ->
      3 <= length (Bytes.split "." (q_name query)) ->
      last (Bytes.split "." (q_name query)) EmptyString = "svc" ->
      kube_query_for self query
      = set_name query (q_name query ++ ".cluster.local")%string).
Proof.
  split.
  - intros tunnel names known type bar. repeat split.
  - intros L C S. unfold kube_query_for. rewrite L. cbn [negb].
    destruct (Bytes.split "." (q_name query)) as [|a [|b [|c rest]]] eqn:P;
      simpl in C; try lia.
    cbn [length Nat.eqb]. rewrite S, String.eqb_refl.
    rewrite join_snoc by discriminate. rewrite <- P.
    now rewrite BytesFacts.join_split.
Qed.

Lemma kube_completion_witness :
  kube_query_for Scenario.tunnel (Scenario.A_query "kafka.myproject.svc")
  = set_name (Scenario.A_query "kafka.myproject.svc")
             "kafka.myproject.svc.cluster.local".
Proof.
  apply (kube_completion Scenario.tunnel
           (Scenario.A_query "kafka.myproject.svc"));
    [reflexivity | simpl; lia | reflexivity].
Defined.

(** C7, as stated, fails: [foo.svc] does not end in [.local] and its
    last label is [svc], yet it has two labels and is completed as
    service [foo] in namespace [svc]. *)
Lemma two_labels_ending_in_svc :
  Bytes.endswith "foo.svc" ".local" = false
  /\ last (Bytes.split "." "foo.svc") EmptyString = "svc"
  /\ q_name (kube_query_for Scenario.tunnel (Scenario.A_query "foo.svc"))
     = "foo.svc.svc.cluster.local"
  /\ q_name (kube_query_for Scenario.tunnel (Scenario.A_query "foo.svc"))
     <> "foo.svc.cluster.local".
Proof. repeat split. discriminate. Qed.

(** ** Names of the answer records *)



Section Names.

Variable net : Upstreams.




End Names.




(** A run that the amended C2 leaves out.  With the suffix [corp.example]
    learned and the cluster resolver down, the fallback call made inside
    the recursive resolution asks for [s], and its answer is returned
    with the record under [s], not under [s.corp.example] that was
    asked, although that upstream echoes the name it is asked. *)
Lemma nested_fallback_answer_under_stem :
  query Scenario.kube_down 2 (Scenario.A_query "s.corp.example") None None
        Scenario.tunnel_corp
  = Some ((Succeeded (mkResult [mkRR "s" (Record_A "10.0.0.7")] [] []),
           Scenario.A_query "s.corp.example"),
          Scenario.tunnel_corp,
          [KubeQuery (Scenario.A_query "s.bar.svc.cluster.local")
                     timeout_kube;
           FallbackQuery (Scenario.A_query "s") timeout_1_1])
  /\ ~ named "s.corp.example"
         (mkResult [mkRR "s" (Record_A "10.0.0.7")] [] []).
Proof.
  split; [reflexivity|]. intros N.
  inversion N as [|rr l E F]; subst. discriminate.
Qed.

(** ** Suffix stripping and the recursive resolution *)

Section Recursion.

Variable net : Upstreams.

(** A query that suffix stripping leaves alone is settled within two
    levels of [query]: the second one serves the AAAA rewrite. *)
Lemma unstripped_query_returns fuel query_ timeout real_name self :
  strip_search_suffix (suffixes self) (Bytes.split "." (q_name query_))
  = Bytes.split "." (q_name query_) ->
  exists outcome,
    query net (S (S fuel)) query_ timeout real_name self = Some outcome.
Proof.
  intros C.
  assert (A : forall fuel' q rn,
             q_name q = q_name query_ -> q_type q = dns_A ->
             exists outcome, query net (S fuel') q timeout rn self
                             = Some outcome).
  { intros fuel' q rn Nm TA.
    destruct (identify_sanity_check (real_name_of rn q)) as [d|] eqn:E.
    { rewrite (query_sanity net fuel' _ _ _ _ _ E). eauto. }
    destruct (Bytes.startswith (first_label (q_name q)) "hellotelepresence")
      eqn:P.
    { rewrite (query_probe net fuel' _ _ _ _ E P). eauto. }
    rewrite <- Nm in C.
    rewrite (query_dispatches net fuel' _ _ _ _ E P C).
    destruct (noloop self) eqn:L.
    - destruct (cluster_safe (local_names self) (q_name q)) eqn:S.
      + rewrite (dispatch_tunnel_safe net _ _ _ _ _ TA L S).
        destruct (kubedns_query net (kube_query_for self q) timeout_kube)
          as [r|f] eqn:K.
        * rewrite (no_loop_kube_query_succeeded net _ _ _ _ _ K). eauto.
        * rewrite (no_loop_kube_query_failed net _ _ _ _ _ K). eauto.
      + rewrite (dispatch_tunnel_unsafe net _ _ _ _ _ TA L S). eauto.
    - rewrite (dispatch_plain net _ _ _ _ _ TA L). eauto. }
  destruct (N.eq_dec (q_type query_) dns_A) as [TA|TA];
    [now apply A|].
  destruct (identify_sanity_check (real_name_of real_name query_))
    as [d|] eqn:E.
  { rewrite (query_sanity net _ _ _ _ _ _ E). eauto. }
  destruct (Bytes.startswith (first_label (q_name query_))
                             "hellotelepresence") eqn:P.
  { rewrite (query_probe net _ _ _ _ _ E P). eauto. }
  rewrite (query_dispatches net _ _ _ _ _ E P C).
  destruct (N.eq_dec (q_type query_) dns_AAAA) as [TB|TB].
  - rewrite (dispatch_AAAA net _ _ _ _ _ TB). now apply A.
  - rewrite (dispatch_other net _ _ _ _ _ TA TB). eauto.
Qed.

Lemma strip_of_empty_label known :
  ~ In [EmptyString] known ->
  strip_search_suffix known [EmptyString] = [EmptyString].
Proof.
  induction known as [|s rest IH]; intros N; [reflexivity|].
  cbn [strip_search_suffix].
  match goal with
  | |- context [labels_eqb ?a ?b] => assert (E : labels_eqb a b = false)
  end.
  { apply labels_eqb_neq. intros H. apply N. left.
    destruct s as [|a [|b s']]; simpl in H; try discriminate.
    now rewrite H. }
  rewrite E. apply IH. intros I. apply N. now right.
Qed.

(** C10.  When the labels of the query name are, all of them, a learned
    suffix (in a suffix list that is sorted longest first, as every
    list built by the probes is), stripping returns the empty label
    list and not the name.  [_handle_search_suffix] then resolves the
    empty name, the join of no labels, with timeout [(1, 1)] and the
    query's name as real name, and asks the fallback resolver with the
    query as it was asked when that resolution fails; so does [query],
    for a query that is neither a sanity check nor a probe.  Unless the
    one-label suffix made of the empty label was learned, the run
    completes within three levels of [query]. *)
Theorem whole_name_suffix_resolves_empty_name
        fuel rec query_ timeout real_name self :
  let parts := Bytes.split "." (q_name query_) in
  longest_first (suffixes self) ->
  In parts (suffixes self) ->
  strip_search_suffix (suffixes self) parts = []
  /\ Bytes.join "." [] = EmptyString
  /\ handle_search_suffix net rec query_ parts timeout self
     = match rec (set_name query_ EmptyString) timeout_1_1
                 (Some (q_name query_)) self with
       | None => None
       | Some ((Succeeded result, _), self1, trace) =>
           Some (Some (Succeeded result), self1, trace)
       | Some ((Failed _, _), self1, trace) =>
           Some (Some (fallback_query net query_ timeout), self1,
                 trace ++ [FallbackQuery query_ timeout])
       end
  /\ (identify_sanity_check (real_name_of real_name query_) = None ->
      Bytes.startswith (first_label (q_name query_)) "hellotelepresence"
      = false ->
      query net (S fuel) query_ timeout real_name self
      = match query net fuel (set_name query_ EmptyString) timeout_1_1
                    (Some (q_name query_)) self with
        | None => None
        | Some ((Succeeded result, _), self1, trace) =>
            Some ((Succeeded result, query_), self1, trace)
        | Some ((Failed _, _), self1, trace) =>
            Some ((fallback_query net query_ timeout, query_), self1,
                  trace ++ [FallbackQuery query_ timeout])
        end)
  /\ (~ In [EmptyString] (suffixes self) ->
      exists outcome,
        query net (S (S (S fuel))) query_ timeout real_name self
        = Some outcome).
Proof.
  intros parts S I.
  assert (NE : parts <> []) by apply BytesFacts.split_nonempty.
  assert (Z : strip_search_suffix (suffixes self) parts = [])
    by now apply strip_whole_suffix.
  assert (C : strip_search_suffix (suffixes self) parts <> parts)
    by (rewrite Z; congruence).
  split; [exact Z|]. split; [reflexivity|]. split; [|split].
  - rewrite (handle_search_suffix_changed net _ _ _ _ _ C), Z. reflexivity.
  - intros E P.
    rewrite (query_strips net fuel _ _ _ _ E P C). fold parts. rewrite Z.
    reflexivity.
  - intros N.
    destruct (identify_sanity_check (real_name_of real_name query_))
      as [d|] eqn:E.
    { rewrite (query_sanity net _ _ _ _ _ _ E). eauto. }
    destruct (Bytes.startswith (first_label (q_name query_))
                               "hellotelepresence") eqn:P.
    { rewrite (query_probe net _ _ _ _ _ E P). eauto. }
    rewrite (query_strips net _ _ _ _ _ E P C). fold parts. rewrite Z.
    change (Bytes.join "." []) with EmptyString.
    destruct (unstripped_query_returns fuel (set_name query_ EmptyString)
                timeout_1_1 (Some (q_name query_)) self
                (strip_of_empty_label _ N)) as [[[[[r|f] q1] s1] t1] ->];
      eauto.
Qed.

End Recursion.

Lemma whole_name_suffix_resolves_empty_name_witness :
  strip_search_suffix (suffixes Scenario.tunnel_corp)
                      (Bytes.split "." "corp.example") = []
  /\ query Scenario.kube_down 3 (Scenario.A_query "corp.example") None None
           Scenario.tunnel_corp
     = Some ((Succeeded (mkResult [mkRR "" (Record_A "10.0.0.7")] [] []),
              Scenario.A_query "corp.example"),
             Scenario.tunnel_corp,
             [KubeQuery (Scenario.A_query ".bar.svc.cluster.local")
                        timeout_kube;
              FallbackQuery (Scenario.A_query "") timeout_1_1]).
Proof.
  assert (S : longest_first (suffixes Scenario.tunnel_corp))
    by repeat constructor.
  assert (I : In (Bytes.split "." (q_name (Scenario.A_query "corp.example")))
                 (suffixes Scenario.tunnel_corp))
    by (simpl; auto).
  destruct (whole_name_suffix_resolves_empty_name Scenario.kube_down 2
              (query Scenario.kube_down 2)
              (Scenario.A_query "corp.example") None None
              Scenario.tunnel_corp S I) as [Z [_ [_ [Q _]]]].
  split; [exact Z|].
  rewrite (Q eq_refl eq_refl). reflexivity.
Defined.

(** ** The AAAA rewrite and the resolver state *)

Section Rewrite.

Variable net : Upstreams.

(** X20.  Where suffix stripping leaves the name alone, an AAAA query
    has the outcome of the A query for the same name under the same real
    name, one level of [query] deeper: the same Deferred, the same
    resolver afterwards and the same upstream calls. *)
Lemma AAAA_unstripped_as_A fuel query_ timeout real_name self :
  q_type query_ = dns_AAAA ->
  strip_search_suffix (suffixes self) (Bytes.split "." (q_name query_))
  = Bytes.split "." (q_name query_) ->
  outcome_of (query net (S (S fuel)) query_ timeout real_name self)
  = outcome_of (query net (S fuel) (set_type query_ dns_A) timeout
                      (Some (real_name_of real_name query_)) self).
Proof.
  intros TB C.
  destruct (identify_sanity_check (real_name_of real_name query_))
    as [d|] eqn:E.
  { rewrite (query_sanity net _ _ _ _ _ _ E).
    now rewrite (query_sanity net _ (set_type query_ dns_A) _
                   (Some (real_name_of real_name query_)) _ _ E). }
  destruct (Bytes.startswith (first_label (q_name query_))
                             "hellotelepresence") eqn:P.
  { rewrite (query_probe net _ _ _ _ _ E P).
    now rewrite (query_probe net _ (set_type query_ dns_A) _
                   (Some (real_name_of real_name query_)) _ E P). }
  rewrite (query_dispatches net _ _ _ _ _ E P C).
  now rewrite (dispatch_AAAA net _ _ _ _ _ TB).
Qed.

(** A run of [query] changes the resolver at most by recording one
    suffix. *)
Lemma query_records_at_most_one_suffix fuel :
  forall query_ timeout real_name self outcome self' trace,
    query net fuel query_ timeout real_name self
    = Some (outcome, self', trace) ->
    self' = self
    \/ exists suffix,
        self' = set_suffixes self (record_suffix (suffixes self) suffix).
Proof.
  induction fuel as [|fuel IH]; intros q t rn self outcome self' trace H;
    [discriminate|].
  destruct (identify_sanity_check (real_name_of rn q)) as [d|] eqn:E.
  { rewrite (query_sanity net fuel _ _ _ _ _ E) in H.
    injection H as _ <- _. now left. }
  destruct (Bytes.startswith (first_label (q_name q)) "hellotelepresence")
    eqn:P.
  { rewrite (query_probe net fuel _ _ _ _ E P) in H.
    injection H as _ <- _. right. eauto. }
  destruct (labels_eqb
              (strip_search_suffix (suffixes self)
                                   (Bytes.split "." (q_name q)))
              (Bytes.split "." (q_name q))) eqn:C.
  - apply labels_eqb_eq in C.
    rewrite (query_dispatches net fuel _ _ _ _ E P C) in H.
    destruct (N.eq_dec (q_type q) dns_A) as [TA|TA].
    + destruct (noloop self) eqn:L.
      * destruct (cluster_safe (local_names self) (q_name q)) eqn:S.
        -- rewrite (dispatch_tunnel_safe net _ _ _ _ _ TA L S) in H.
           destruct (kubedns_query net (kube_query_for self q) timeout_kube)
             as [r|f] eqn:K.
           ++ rewrite (no_loop_kube_query_succeeded net _ _ _ _ _ K) in H.
              injection H as _ <- _. now left.
           ++ rewrite (no_loop_kube_query_failed net _ _ _ _ _ K) in H.
              injection H as _ <- _. now left.
        -- rewrite (dispatch_tunnel_unsafe net _ _ _ _ _ TA L S) in H.
           injection H as _ <- _. now left.
      * rewrite (dispatch_plain net _ _ _ _ _ TA L) in H.
        injection H as _ <- _. now left.
    + destruct (N.eq_dec (q_type q) dns_AAAA) as [TB|TB].
      * rewrite (dispatch_AAAA net _ _ _ _ _ TB) in H.
        apply (IH _ _ _ _ _ _ _ H).
      * rewrite (dispatch_other net _ _ _ _ _ TA TB) in H.
        injection H as _ <- _. now left.
  - apply labels_eqb_neq in C.
    rewrite (query_strips net fuel _ _ _ _ E P C) in H.
    destruct (query net fuel _ timeout_1_1 (Some (q_name q)) self)
      as [[[[[r|f] q1] self1] trace1]|] eqn:R; [| |discriminate];
      injection H as _ <- _; apply (IH _ _ _ _ _ _ _ R).
Qed.

(** Every run of [query] keeps the suffix list sorted longest first and
    free of duplicates. *)
Lemma query_keeps_suffix_invariant
      fuel query_ timeout real_name self outcome self' trace :
  query net fuel query_ timeout real_name self
  = Some (outcome, self', trace) ->
  longest_first (suffixes self) /\ NoDup (suffixes self) ->
  longest_first (suffixes self') /\ NoDup (suffixes self').
Proof.
  intros H [S N].
  destruct (query_records_at_most_one_suffix _ _ _ _ _ _ _ _ H)
    as [->|[suffix ->]]; [now split|].
  split; [now apply record_suffix_longest_first
         | now apply record_suffix_NoDup].
Qed.

End Rewrite.

(** ** Runs in which the real name or the IPv4 answer is lost *)

(** C3 at a nested resolution: with the suffixes [a.b] and [c] learned,
    the A query for [s.c.a.b] is stripped to [s.c] with real name
    [s.c.a.b], and that call strips again to [s] but passes its own query
    name [s.c] as the real name; the cluster resolver's answer comes back
    under [s.c], not under the name that was asked. *)
Theorem nested_strip_passes_query_name :
  query Scenario.kube_up 3 (Scenario.A_query "s.c.a.b") None None
        Scenario.tunnel_two
  = Some ((Succeeded (mkResult [mkRR "s.c" (Record_A "10.0.0.7")] [] []),
           Scenario.A_query "s.c.a.b"),
          Scenario.tunnel_two,
          [KubeQuery (Scenario.A_query "s.bar.svc.cluster.local")
                     timeout_kube])
  /\ query Scenario.kube_up 2 (Scenario.A_query "s.c") timeout_1_1
           (Some "s.c.a.b") Scenario.tunnel_two
     = query Scenario.kube_up 2 (Scenario.A_query "s.c") timeout_1_1
             (Some "s.c") Scenario.tunnel_two.
Proof. split; reflexivity. Qed.

(** C6 after a failed strip: with the suffix [corp.example] learned, the
    cluster resolver down and a fallback resolver that knows
    [s.corp.example] only, the AAAA query for [s.corp.example] is
    stripped to [s], which nobody resolves, and the fallback resolver is
    then asked the query as it came, type AAAA; the answer is an AAAA
    record, where the A query for the same name gets an A record. *)
Theorem AAAA_after_failed_strip_is_IPv6 :
  query Scenario.corp_only 4 (Scenario.AAAA_query "s.corp.example") None None
        Scenario.tunnel_corp
  = Some ((Succeeded
             (mkResult [mkRR "s.corp.example" (Record_AAAA "fd00::7")] [] []),
           Scenario.AAAA_query "s.corp.example"),
          Scenario.tunnel_corp,
          [KubeQuery (Scenario.A_query "s.bar.svc.cluster.local")
                     timeout_kube;
           FallbackQuery (Scenario.A_query "s") timeout_1_1;
           FallbackQuery (Scenario.AAAA_query "s.corp.example") None])
  /\ rr_type (mkRR "s.corp.example" (Record_AAAA "fd00::7")) = dns_AAAA
  /\ query Scenario.corp_only 4 (Scenario.A_query "s.corp.example") None None
           Scenario.tunnel_corp
     = Some ((Succeeded
                (mkResult [mkRR "s.corp.example" (Record_A "10.0.0.7")] [] []),
              Scenario.A_query "s.corp.example"),
             Scenario.tunnel_corp,
             [KubeQuery (Scenario.A_query "s.bar.svc.cluster.local")
                        timeout_kube;
              FallbackQuery (Scenario.A_query "s") timeout_1_1;
              FallbackQuery (Scenario.A_query "s.corp.example") None]).
Proof. repeat split. Qed.

(** ** The learned suffix list *)

(** C5 (as amended).  After any sequence of learned suffixes the stored
    list is sorted by decreasing label count, equal counts allowed; it
    has no duplicates; the suffixes of any one label count stand in the
    order in which they first arrived; and recording a suffix that is
    already in the list leaves the list as it is.  Every run of [query]
    keeps a suffix list sorted and free of duplicates. *)
Theorem suffix_list_sorted_stable_nodup (arrivals : list labels) :
  longest_first (learned arrivals)
  /\ NoDup (learned arrivals)
  /\ (forall k, with_label_count k (learned arrivals)
                = first_arrivals (with_label_count k arrivals))
  /\ (forall s, In s (learned arrivals) ->
                record_suffix (learned arrivals) s = learned arrivals)
  /\ (forall net fuel query_ timeout real_name self outcome self' trace,
         query net fuel query_ timeout real_name self
         = Some (outcome, self', trace) ->
         longest_first (suffixes self) /\ NoDup (suffixes self) ->
         longest_first (suffixes self') /\ NoDup (suffixes self')).
Proof.
  unfold learned. split; [|split; [|split; [|split]]].
  - apply fold_record_longest_first. constructor.
  - apply fold_record_NoDup. constructor.
  - intros k. apply (fold_record_with_label_count k arrivals []).
    constructor.
  - intros s. apply record_suffix_known.
  - intros net fuel query_ timeout real_name self outcome self' trace.
    apply query_keeps_suffix_invariant.
Qed.

Lemma suffix_list_sorted_stable_nodup_witness :
  record_suffix (learned [["corp"]; ["a"; "b"]; ["lan"]; ["corp"]]) ["lan"]
  = learned [["corp"]; ["a"; "b"]; ["lan"]; ["corp"]].
Proof.
  apply (suffix_list_sorted_stable_nodup
           [["corp"]; ["a"; "b"]; ["lan"]; ["corp"]]).
  simpl. auto.
Defined.

(** C5, as stated, fails: two suffixes of one label each are both kept,
    in arrival order, so the label counts do not strictly decrease. *)
Lemma equal_length_suffixes_not_strict :
  learned [["corp"]; ["lan"]] = [["corp"]; ["lan"]]
  /\ ~ strictly_longest_first (learned [["corp"]; ["lan"]]).
Proof.
  split; [reflexivity|].
  intros S. change (learned [["corp"]; ["lan"]])
    with [["corp"]; ["lan"]] in S.
  inversion S as [|a l SS F]; subst.
  inversion F as [|b l' L F']; subst. simpl in L. lia.
Qed.

(** * More of the module *)

(** ** Labels, dots and the split of a joined name *)

Module LabelFacts.
Import Bytes.

Lemma count_append c a b :
  count c (a ++ b)%string = count c a + count c b.
Proof. induction a as [|d a IH]; simpl; [reflexivity|]. rewrite IH. lia. Qed.

Lemma length_split sep s : length (split sep s) = S (count sep s).
Proof.
  induction s as [|c rest IH]; [reflexivity|]. cbn [split count].
  destruct (Ascii.eqb c sep).
  - simpl. now rewrite IH.
  - pose proof (BytesFacts.split_nonempty sep rest) as NE.
    destruct (split sep rest); [congruence|]. simpl in *. exact IH.
Qed.

Lemma split_labels_free sep s :
  Forall (fun label => count sep label = 0) (split sep s).
Proof.
  induction s as [|c rest IH]; [repeat constructor|]. cbn [split].
  destruct (Ascii.eqb c sep) eqn:E.
  - constructor; [reflexivity | exact IH].
  - destruct (split sep rest) as [|label more]; [repeat constructor|].
    + simpl. now rewrite E.
    + inversion IH; subst. constructor; [|assumption].
      simpl. rewrite E. assumption.
Qed.

Lemma split_free sep s : count sep s = 0 -> split sep s = [s].
Proof.
  induction s as [|c rest IH]; [reflexivity|]. cbn [split count].
  destruct (Ascii.eqb c sep); [discriminate|]. simpl. intros Z.
  now rewrite (IH Z).
Qed.

Lemma split_label_sep sep label rest :
  count sep label = 0 ->
  split sep (label ++ String sep rest)%string = label :: split sep rest.
Proof.
  induction label as [|c label IH]; cbn [split count append].
  - intros _. now rewrite Ascii.eqb_refl.
  - destruct (Ascii.eqb c sep); [discriminate|]. simpl. intros Z.
    now rewrite (IH Z).
Qed.

Lemma split_join sep parts :
  parts <> [] ->
  Forall (fun label => count sep label = 0) parts ->
  split sep (join (String sep EmptyString) parts) = parts.
Proof.
  induction parts as [|p rest IH]; [congruence|]. intros _ F.
  inversion F as [|x l Fp Fr]; subst.
  destruct rest as [|p' rest'].
  - simpl. now apply split_free.
  - rewrite BytesFacts.join_cons by discriminate.
    cbn [append]. rewrite split_label_sep by assumption.
    now rewrite IH.
Qed.

Lemma endswith_count c s suf :
  endswith s suf = true -> count c suf <= count c s.
Proof.
  intros E. apply BytesFacts.endswith_spec in E. destruct E as [p ->].
  rewrite count_append. lia.
Qed.

Lemma endswith_append s suf : endswith (s ++ suf)%string suf = true.
Proof. apply BytesFacts.endswith_spec. now exists s. Qed.

End LabelFacts.

(** ** What [_strip_search_suffix] removes *)

Lemma suffix_matches parts s :
  labels_eqb (slice_from_neg (length s) parts) s = true
  <-> (s <> [] /\ ends_with parts s) \/ (s = [] /\ parts = []).
Proof.
  rewrite labels_eqb_eq. destruct s as [|a s'].
  - simpl. split.
    + intros ->. now right.
    + intros [[N _]|[_ ->]]; congruence.
  - cbn [length slice_from_neg]. split.
    + intros E. left. split; [discriminate|].
      exists (firstn (length parts - S (length s')) parts).
      rewrite <- E. symmetry. apply firstn_skipn.
    + intros [[_ [stem ->]]|[N _]]; [|discriminate].
      rewrite length_app. cbn [length].
      replace (length stem + S (length s') - S (length s'))
        with (length stem) by lia.
      rewrite skipn_app, skipn_all, Nat.sub_diag. reflexivity.
Qed.

Lemma suffix_stripped (stem s : labels) :
  s <> [] -> slice_to_neg (length s) (stem ++ s) = stem.
Proof.
  destruct s as [|a s']; [congruence|]. intros _.
  cbn [length slice_to_neg]. rewrite length_app. cbn [length].
  replace (length stem + S (length s') - S (length s'))
    with (length stem) by lia.
  rewrite firstn_app, firstn_all, Nat.sub_diag. simpl.
  apply app_nil_r.
Qed.

(** Either no learned suffix applies, or the first one in the list that
    the name ends with is cut off. *)
Lemma strip_cases known parts :
  (strip_search_suffix known parts = parts
   /\ forall s, In s known -> s <> [] -> ~ ends_with parts s)
  \/ (exists before s after stem,
         known = before ++ s :: after
         /\ s <> [] /\ parts = stem ++ s
         /\ strip_search_suffix known parts = stem
         /\ forall s', In s' before -> s' <> [] -> ~ ends_with parts s').
Proof.
  induction known as [|s rest IH].
  - left. split; [reflexivity|]. intros s [].
  - cbn [strip_search_suffix].
    destruct (labels_eqb (slice_from_neg (length s) parts) s) eqn:E.
    + apply suffix_matches in E. destruct E as [[N [stem ->]]|[-> ->]].
      * right. exists [], s, rest, stem.
        repeat split; try assumption; [now apply suffix_stripped|].
        intros s' [].
      * left. split; [reflexivity|].
        intros s' _ N [stem H]. symmetry in H.
        apply app_eq_nil in H. destruct H; congruence.
    + assert (M : s <> [] -> ~ ends_with parts s).
      { intros N H.
        assert (T : labels_eqb (slice_from_neg (length s) parts) s = true)
          by (apply suffix_matches; now left).
        congruence. }
      destruct IH as [[U F]|[before [s0 [after [stem [K [N [P [R F]]]]]]]]].
      * left. split; [exact U|]. intros s' [<-|I]; [exact M | now apply F].
      * right. exists (s :: before), s0, after, stem.
        repeat split; try assumption; [now rewrite K|].
        intros s' [<-|I]; [exact M | now apply F].
Qed.

Lemma strip_is_prefix known parts :
  exists tail, parts = strip_search_suffix known parts ++ tail
               /\ (strip_search_suffix known parts <> parts -> tail <> []).
Proof.
  destruct (strip_cases known parts)
    as [[U _]|[before [s [after [stem [_ [N [P [R _]]]]]]]]].
  - exists []. rewrite U, app_nil_r. split; [reflexivity|congruence].
  - exists s. rewrite R. split; [exact P|]. intros _. exact N.
Qed.


(** ** [insort] with any key *)

Lemma insort_scan_position {A} (key : A -> Z) k x l :
  exists l1 l2,
    l = l1 ++ l2 /\ insort_scan key k x l = l1 ++ x :: l2
    /\ Forall (fun e => (key e <= k)%Z) l1
    /\ match l2 with [] => True | e :: _ => (k < key e)%Z end.
Proof.
  induction l as [|e rest IH]; simpl.
  - exists [], []. repeat split. constructor.
  - destruct (Z.gtb_spec (key e) k) as [G|G].
    + exists [], (e :: rest). repeat split; [constructor | exact G].
    + destruct IH as [l1 [l2 [S [R [F T]]]]].
      exists (e :: l1), l2. subst rest. rewrite R.
      repeat split; [now constructor | exact T].
Qed.

(** X1.  [insort] puts the new element behind every element whose key is
    not greater and in front of the first element whose key is greater,
    whether or not the list was sorted; nothing else moves. *)
Theorem insort_position {A} (key : A -> Z) (target_list : list A) x :
  exists l1 l2,
    target_list = l1 ++ l2
    /\ insort target_list x key = l1 ++ x :: l2
    /\ Forall (fun e => (key e <= key x)%Z) l1
    /\ match l2 with [] => True | e :: _ => (key x < key e)%Z end.
Proof. rewrite insort_is_scan. apply insort_scan_position. Qed.

(** X2.  On a list sorted by the key, [insort] returns a sorted list
    with the same elements and the new one. *)
Theorem insort_keeps_sorted {A} (key : A -> Z) (target_list : list A) x :
  sorted_by key target_list ->
  sorted_by key (insort target_list x key)
  /\ Permutation (x :: target_list) (insort target_list x key).
Proof.
  intros S. split; [|apply insort_perm].
  rewrite insort_is_scan. unfold sorted_by in *.
  induction S as [|e rest SS IH F]; simpl.
  - repeat constructor.
  - destruct (Z.gtb_spec (key e) (key x)) as [G|G].
    + constructor; [now constructor|].
      constructor; [lia|]. eapply Forall_impl; [|exact F].
      simpl; intros; lia.
    + constructor; [exact IH|].
      eapply Permutation_Forall; [apply insort_scan_perm|].
      constructor; assumption.
Qed.

Lemma insort_keeps_sorted_witness :
  sorted_by (fun n => n) (insort [1; 3; 3; 8]%Z 3%Z (fun n => n))
  /\ Permutation [3; 1; 3; 3; 8]%Z (insort [1; 3; 3; 8]%Z 3%Z (fun n => n)).
Proof.
  apply (insort_keeps_sorted (fun n => n) [1; 3; 3; 8]%Z 3%Z).
  unfold sorted_by. repeat constructor; simpl; lia.
Defined.

(** ** [_strip_search_suffix] *)

(** X3.  Stripping leaves the labels as they are exactly when they end
    with no learned suffix of one label or more; the empty suffix, which
    a probe of one label teaches, never strips anything. *)
Theorem strip_unchanged_iff known parts :
  strip_search_suffix known parts = parts
  <-> forall s, In s known -> s <> [] -> ~ ends_with parts s.
Proof.
  destruct (strip_cases known parts)
    as [[U F]|[before [s [after [stem [K [N [P [R F]]]]]]]]].
  - tauto.
  - split.
    + intros U. rewrite R in U. rewrite U in P at 1.
      rewrite <- (app_nil_r parts) in P at 1.
      apply app_inv_head in P. congruence.
    + intros H. exfalso. apply (H s); [|exact N|now exists stem].
      rewrite K. apply in_or_app. right. now left.
Qed.

Lemma sorted_after before (s : labels) after :
  longest_first (before ++ s :: after) ->
  Forall (fun b => length b <= length s) after.
Proof.
  unfold longest_first. induction before as [|b before IH]; simpl; intros S.
  - now inversion S.
  - inversion S; subst. now apply IH.
Qed.

Lemma strip_first_is_longest known parts before s after :
  longest_first known -> known = before ++ s :: after ->
  ends_with parts s ->
  (forall s', In s' before -> s' <> [] -> ~ ends_with parts s') ->
  forall s', In s' known -> ends_with parts s' -> length s' <= length s.
Proof.
  intros S K E F s' I E'. destruct s' as [|a s'']; [simpl; lia|].
  rewrite K in I. apply in_app_or in I. destruct I as [I|[<-|I]].
  - exfalso. apply (F _ I); [discriminate | exact E'].
  - lia.
  - rewrite K in S. apply sorted_after in S.
    rewrite Forall_forall in S. now apply S.
Qed.

(** X4.  When stripping changes the labels, what it cuts off is a learned
    suffix that the name ends with, and, the list being sorted longest
    first, the longest such suffix. *)
Theorem strip_removes_longest_suffix known parts :
  longest_first known ->
  strip_search_suffix known parts <> parts ->
  exists s,
    In s known /\ s <> []
    /\ parts = strip_search_suffix known parts ++ s
    /\ forall s', In s' known -> ends_with parts s' ->
                  length s' <= length s.
Proof.
  intros S C.
  destruct (strip_cases known parts)
    as [[U F]|[before [s [after [stem [K [N [P [R F]]]]]]]]];
    [contradiction|].
  exists s. rewrite R. repeat split; try assumption.
  - rewrite K. apply in_or_app. right. now left.
  - apply (strip_first_is_longest known parts before s after S K);
      [now exists stem | exact F].
Qed.

Lemma strip_removes_longest_suffix_witness :
  exists s,
    In s [["eu"; "corp"; "example"]; ["corp"; "example"]; ["example"]]
    /\ s <> []
    /\ ["db"; "eu"; "corp"; "example"]
       = strip_search_suffix
           [["eu"; "corp"; "example"]; ["corp"; "example"]; ["example"]]
           ["db"; "eu"; "corp"; "example"] ++ s
    /\ forall s',
        In s' [["eu"; "corp"; "example"]; ["corp"; "example"]; ["example"]]
        -> ends_with ["db"; "eu"; "corp"; "example"] s'
        -> length s' <= length s.
Proof.
  apply (strip_removes_longest_suffix
           [["eu"; "corp"; "example"]; ["corp"; "example"]; ["example"]]
           ["db"; "eu"; "corp"; "example"]).
  - unfold longest_first. repeat constructor; simpl; lia.
  - simpl. discriminate.
Defined.

Lemma strip_unchanged_iff_witness :
  strip_search_suffix [[]; ["corp"]] ["db"; "lan"] = ["db"; "lan"].
Proof.
  apply (strip_unchanged_iff [[]; ["corp"]] ["db"; "lan"]).
  intros s [<-|[<-|[]]] N [stem E]; [now apply N|].
  apply (f_equal (fun l => last l EmptyString)) in E.
  rewrite last_last in E. discriminate.
Defined.

(** ** More on the Kubernetes completion *)

Lemma completed_ends_in_local (x : bytes) :
  Bytes.endswith (x ++ ".svc.cluster.local")%string ".local" = true
  /\ Bytes.endswith (x ++ ".svc.cluster.local")%string ".cluster.local"
     = true
  /\ Bytes.endswith (x ++ "." ++ "cluster.local")%string ".local" = true
  /\ Bytes.endswith (x ++ "." ++ "cluster.local")%string ".cluster.local"
     = true.
Proof.
  repeat split; apply BytesFacts.endswith_spec.
  - exists (x ++ ".svc.cluster")%string.
    now rewrite BytesFacts.append_assoc.
  - exists (x ++ ".svc")%string. now rewrite BytesFacts.append_assoc.
  - exists (x ++ ".cluster")%string. now rewrite BytesFacts.append_assoc.
  - now exists x.
Qed.

Lemma kube_query_for_local self query :
  Bytes.endswith (q_name query) ".local" = true ->
  kube_query_for self query = query.
Proof. intros E. unfold kube_query_for. now rewrite E. Qed.

Lemma kube_query_for_cases self query :
  kube_query_for self query = query
  \/ (Bytes.endswith (q_name (kube_query_for self query)) ".local" = true
      /\ Bytes.endswith (q_name (kube_query_for self query))
                        ".cluster.local" = true).
Proof.
  unfold kube_query_for.
  destruct (Bytes.endswith (q_name query) ".local"); cbn [negb];
    [now left|].
  set (parts := if (length (Bytes.split "." (q_name query)) =? 1)%nat
                then Bytes.split "." (q_name query) ++ [namespace self]
                else Bytes.split "." (q_name query)).
  assert (NE : parts <> []).
  { pose proof (BytesFacts.split_nonempty "." (q_name query)) as N.
    unfold parts. destruct (_ =? 1)%nat; [|exact N].
    intros H. apply app_eq_nil in H. now destruct H. }
  destruct (length parts =? 2)%nat.
  - right. cbn [q_name set_name].
    destruct (completed_ends_in_local (Bytes.join "." parts)) as [A [B _]].
    now split.
  - destruct (String.eqb (last parts EmptyString) "svc"); [|now left].
    right. cbn [q_name set_name].
    pose proof (join_snoc "." parts "cluster.local" NE) as J.
    unfold bytes in *. rewrite J.
    destruct (completed_ends_in_local (Bytes.join "." parts))
      as [_ [_ [A B]]].
    now split.
Qed.

Lemma kube_query_for_type self query :
  q_type (kube_query_for self query) = q_type query.
Proof.
  unfold kube_query_for.
  destruct (negb _); [|reflexivity].
  destruct (_ =? 2)%nat; [reflexivity|].
  now destruct (String.eqb _ _).
Qed.

(** X5.  Completion is idempotent and keeps the query type; the query
    it returns is the query it was given or has a name that ends in
    [.cluster.local]. *)
Theorem kube_completion_idempotent self query :
  kube_query_for self (kube_query_for self query) = kube_query_for self query
  /\ q_type (kube_query_for self query) = q_type query
  /\ (kube_query_for self query = query
      \/ Bytes.endswith (q_name (kube_query_for self query))
                        ".cluster.local" = true).
Proof.
  split; [|split; [apply kube_query_for_type|]].
  - destruct (kube_query_for_cases self query) as [U|[L _]].
    + now rewrite !U.
    + now apply kube_query_for_local.
  - destruct (kube_query_for_cases self query) as [U|[_ C]]; auto.
Qed.

Lemma kube_query_for_bare self query :
  Bytes.count "." (q_name query) = 0 ->
  kube_query_for self query
  = set_name query
      (q_name query ++ "." ++ namespace self ++ ".svc.cluster.local")%string.
Proof.
  intros Z.
  assert (L : Bytes.endswith (q_name query) ".local" = false).
  { destruct (Bytes.endswith (q_name query) ".local") eqn:E;
      [|reflexivity].
    apply (LabelFacts.endswith_count "."%char) in E.
    rewrite Z in E. simpl in E. lia. }
  unfold kube_query_for. rewrite L. cbn [negb].
  rewrite (LabelFacts.split_free _ _ Z). simpl.
  now rewrite BytesFacts.append_assoc.
Qed.

(** X6.  Completion by the number of dots.  A name without a dot gets
    the namespace and [.svc.cluster.local]; a name with one dot that does
    not end in [.local] gets [.svc.cluster.local]; a name that ends in
    [.local], or has two dots or more and a last label other than [svc],
    is asked as it is. *)
Theorem kube_completion_by_dots self query :
  (Bytes.count "." (q_name query) = 0 ->
   q_name (kube_query_for self query)
   = (q_name query ++ "." ++ namespace self ++ ".svc.cluster.local")%string)
  /\ (Bytes.count "." (q_name query) = 1 ->
      Bytes.endswith (q_name query) ".local" = false ->
      q_name (kube_query_for self query)
      = (q_name query ++ ".svc.cluster.local")%string)
  /\ (2 <= Bytes.count "." (q_name query) ->
      last (Bytes.split "." (q_name query)) EmptyString <> "svc" ->
      kube_query_for self query = query)
  /\ (Bytes.endswith (q_name query) ".local" = true ->
      kube_query_for self query = query).
Proof.
  split; [|split; [|split; [|apply kube_query_for_local]]].
  - intros Z. now rewrite (kube_query_for_bare self query Z).
  - intros One L. unfold kube_query_for. rewrite L. cbn [negb].
    pose proof (LabelFacts.length_split "."%char (q_name query)) as Len.
    rewrite One in Len. unfold labels, bytes in *. rewrite !Len.
    cbn [Nat.eqb]. rewrite Len. cbn [Nat.eqb q_name set_name].
    now rewrite BytesFacts.join_split.
  - intros Two S.
    destruct (Bytes.endswith (q_name query) ".local") eqn:L;
      [now apply kube_query_for_local|].
    unfold kube_query_for. rewrite L. cbn [negb].
    pose proof (LabelFacts.length_split "."%char (q_name query)) as Len.
    assert (E1 : (length (Bytes.split "." (q_name query)) =? 1)%nat = false)
      by (apply Nat.eqb_neq; lia).
    assert (E2 : (length (Bytes.split "." (q_name query)) =? 2)%nat = false)
      by (apply Nat.eqb_neq; lia).
    apply String.eqb_neq in S. unfold labels, bytes in *.
    now rewrite E1, E2, S.
Qed.

Lemma kube_completion_by_dots_witness :
  q_name (kube_query_for Scenario.tunnel (Scenario.A_query "redis"))
  = "redis.bar.svc.cluster.local".
Proof.
  apply (kube_completion_by_dots Scenario.tunnel (Scenario.A_query "redis")).
  reflexivity.
Defined.

(** ** Induction over the runs of [query] *)

Section Runs.

Variable net : Upstreams.

Variable P : Query -> Timeout -> option bytes -> LocalResolver -> Run -> Prop.

Let parts_of (q : Query) : labels := Bytes.split "." (q_name q).
Let no_probe (q : Query) : Prop :=
  Bytes.startswith (first_label (q_name q)) "hellotelepresence" = false.
Let no_sanity (rn : option bytes) (q : Query) : Prop :=
  identify_sanity_check (real_name_of rn q) = None.
Let nested (self : LocalResolver) (q : Query) : Query :=
  set_name q (Bytes.join "."
                (strip_search_suffix (suffixes self) (parts_of q))).
Let stripped (self : LocalResolver) (q : Query) : Prop :=
  strip_search_suffix (suffixes self) (parts_of q) <> parts_of q.
Let unstripped (self : LocalResolver) (q : Query) : Prop :=
  strip_search_suffix (suffixes self) (parts_of q) = parts_of q.

Hypothesis on_sanity : forall q t rn self d,
    identify_sanity_check (real_name_of rn q) = Some d ->
    P q t rn self (d, q, self, []).

Hypothesis on_probe : forall q t rn self,
    no_sanity rn q ->
    Bytes.startswith (first_label (q_name q)) "hellotelepresence" = true ->
    P q t rn self
      (got_ips (real_name_of rn q) ["127.0.0.1"] Record_A, q,
       set_suffixes self
         (record_suffix (suffixes self) (tl (parts_of q))),
       []).

Hypothesis on_strip_success : forall q t rn self r q1 self1 trace,
    no_sanity rn q -> no_probe q -> stripped self q ->
    P (nested self q) timeout_1_1 (Some (q_name q)) self
      (Succeeded r, q1, self1, trace) ->
    P q t rn self (Succeeded r, q, self1, trace).

Hypothesis on_strip_failure : forall q t rn self f q1 self1 trace,
    no_sanity rn q -> no_probe q -> stripped self q ->
    P (nested self q) timeout_1_1 (Some (q_name q)) self
      (Failed f, q1, self1, trace) ->
    P q t rn self
      (fallback_query net q t, q, self1, trace ++ [FallbackQuery q t]).

Hypothesis on_kube_success : forall q t rn self r,
    no_sanity rn q -> no_probe q -> unstripped self q ->
    q_type q = dns_A -> noloop self = true ->
    cluster_safe (local_names self) (q_name q) = true ->
    kubedns_query net (kube_query_for self q) timeout_kube = Succeeded r ->
    P q t rn self
      (Succeeded (fix_names (real_name_of rn q) r), q, self,
       [KubeQuery (kube_query_for self q) timeout_kube]).

Hypothesis on_kube_failure : forall q t rn self f,
    no_sanity rn q -> no_probe q -> unstripped self q ->
    q_type q = dns_A -> noloop self = true ->
    cluster_safe (local_names self) (q_name q) = true ->
    kubedns_query net (kube_query_for self q) timeout_kube = Failed f ->
    P q t rn self
      (fallback_query net q t, q, self,
       [KubeQuery (kube_query_for self q) timeout_kube;
        FallbackQuery q t]).

Hypothesis on_unsafe : forall q t rn self,
    no_sanity rn q -> no_probe q -> unstripped self q ->
    q_type q = dns_A -> noloop self = true ->
    cluster_safe (local_names self) (q_name q) = false ->
    P q t rn self (fallback_query net q t, q, self, [FallbackQuery q t]).

Hypothesis on_native : forall q t rn self,
    no_sanity rn q -> no_probe q -> unstripped self q ->
    q_type q = dns_A -> noloop self = false ->
    P q t rn self
      (match resolve net (q_name q) with
       | Addresses ips => got_ips (real_name_of rn q) ips Record_A
       | Raised message => got_error message
       end, q, self, [NativeResolve (q_name q)]).

Hypothesis on_AAAA : forall q t rn self run,
    no_sanity rn q -> no_probe q -> unstripped self q ->
    q_type q = dns_AAAA ->
    P (set_type q dns_A) t (Some (real_name_of rn q)) self run ->
    P q t rn self run.

Hypothesis on_other : forall q t rn self,
    no_sanity rn q -> no_probe q -> unstripped self q ->
    q_type q <> dns_A -> q_type q <> dns_AAAA ->
    P q t rn self (fallback_query net q t, q, self, [FallbackQuery q t]).

Lemma query_run_ind fuel :
  forall q t rn self run,
    query net fuel q t rn self = Some run -> P q t rn self run.
Proof.
  induction fuel as [|fuel IH]; intros q t rn self run H; [discriminate|].
  destruct (identify_sanity_check (real_name_of rn q)) as [d|] eqn:E.
  { rewrite (query_sanity net fuel _ _ _ _ _ E) in H.
    injection H as <-. now apply on_sanity. }
  destruct (Bytes.startswith (first_label (q_name q)) "hellotelepresence")
    eqn:Pr.
  { rewrite (query_probe net fuel _ _ _ _ E Pr) in H.
    injection H as <-. now apply on_probe. }
  destruct (labels_eqb
              (strip_search_suffix (suffixes self)
                                   (Bytes.split "." (q_name q)))
              (Bytes.split "." (q_name q))) eqn:C.
  - apply labels_eqb_eq in C.
    rewrite (query_dispatches net fuel _ _ _ _ E Pr C) in H.
    destruct (N.eq_dec (q_type q) dns_A) as [TA|TA].
    + destruct (noloop self) eqn:L.
      * destruct (cluster_safe (local_names self) (q_name q)) eqn:S.
        -- rewrite (dispatch_tunnel_safe net _ _ _ _ _ TA L S) in H.
           destruct (kubedns_query net (kube_query_for self q) timeout_kube)
             as [r|f] eqn:K.
           ++ rewrite (no_loop_kube_query_succeeded net _ _ _ _ _ K) in H.
              injection H as <-. now apply on_kube_success.
           ++ rewrite (no_loop_kube_query_failed net _ _ _ _ _ K) in H.
              injection H as <-. now apply (on_kube_failure _ _ _ _ f).
        -- rewrite (dispatch_tunnel_unsafe net _ _ _ _ _ TA L S) in H.
           injection H as <-. now apply on_unsafe.
      * rewrite (dispatch_plain net _ _ _ _ _ TA L) in H.
        injection H as <-. now apply on_native.
    + destruct (N.eq_dec (q_type q) dns_AAAA) as [TB|TB].
      * rewrite (dispatch_AAAA net _ _ _ _ _ TB) in H.
        apply on_AAAA; try assumption. now apply IH.
      * rewrite (dispatch_other net _ _ _ _ _ TA TB) in H.
        injection H as <-. now apply on_other.
  - apply labels_eqb_neq in C.
    rewrite (query_strips net fuel _ _ _ _ E Pr C) in H.
    destruct (query net fuel _ timeout_1_1 (Some (q_name q)) self)
      as [[[[[r|f] q1] self1] trace1]|] eqn:R; [| |discriminate];
      injection H as <-; apply IH in R.
    + now apply (on_strip_success _ _ _ _ _ q1).
    + now apply (on_strip_failure _ _ _ _ f q1).
Qed.

End Runs.

(** ** The name that the recursive resolution works on *)

Lemma stem_is_dot_free known name :
  Forall dot_free (strip_search_suffix known (Bytes.split "." name)).
Proof.
  destruct (strip_is_prefix known (Bytes.split "." name)) as [tail [E _]].
  pose proof (LabelFacts.split_labels_free "."%char name) as F.
  rewrite E in F. apply Forall_app in F. now destruct F.
Qed.

(** The labels of the stripped name are the stem, unless the stem is
    empty: the name is then empty and has the one empty label. *)
Lemma nested_parts known name :
  let stem := strip_search_suffix known (Bytes.split "." name) in
  (stem = [] /\ Bytes.split "." (Bytes.join "." stem) = [EmptyString])
  \/ (stem <> [] /\ Bytes.split "." (Bytes.join "." stem) = stem).
Proof.
  intros stem. destruct stem as [|a stem'] eqn:S.
  - left. now split.
  - right. split; [discriminate|].
    apply LabelFacts.split_join; [discriminate|].
    rewrite <- S. apply stem_is_dot_free.
Qed.

Lemma nested_first_label known name :
  first_label (Bytes.join "."
                 (strip_search_suffix known (Bytes.split "." name)))
  = EmptyString
  \/ first_label (Bytes.join "."
                    (strip_search_suffix known (Bytes.split "." name)))
     = first_label name.
Proof.
  unfold first_label.
  destruct (nested_parts known name) as [[_ E]|[N E]]; rewrite E.
  - now left.
  - right.
    destruct (strip_is_prefix known (Bytes.split "." name)) as [tail [P _]].
    rewrite P at 2.
    destruct (strip_search_suffix known (Bytes.split "." name));
      [congruence|reflexivity].
Qed.

Lemma nested_no_probe known query :
  Bytes.startswith (first_label (q_name query)) "hellotelepresence" = false ->
  Bytes.startswith
    (first_label
       (q_name (set_name query
                  (Bytes.join "."
                     (strip_search_suffix known
                        (Bytes.split "." (q_name query)))))))
    "hellotelepresence" = false.
Proof.
  intros P. cbn [q_name set_name].
  destruct (nested_first_label known (q_name query)) as [-> | ->];
    [reflexivity | exact P].
Qed.

Lemma nested_is_shorter known name :
  let parts := Bytes.split "." name in
  let stem := strip_search_suffix known parts in
  stem <> parts -> length stem < length parts.
Proof.
  intros parts stem C.
  destruct (strip_is_prefix known parts) as [tail [P N]].
  fold stem in P, N. specialize (N C).
  apply (f_equal (@length _)) in P. rewrite length_app in P.
  destruct tail; [congruence|]. simpl in P. lia.
Qed.

Lemma kube_calls_app a b : kube_calls (a ++ b) = kube_calls a ++ kube_calls b.
Proof.
  induction a as [|[q t|q t|h] a IH]; simpl; [reflexivity| |assumption..].
  now rewrite IH.
Qed.

Lemma native_calls_app a b :
  native_calls (a ++ b) = native_calls a ++ native_calls b.
Proof.
  induction a as [|[q t|q t|h] a IH]; simpl; [reflexivity|assumption..|].
  now rewrite IH.
Qed.

Lemma fallback_calls_app a b :
  fallback_calls (a ++ b) = fallback_calls a ++ fallback_calls b.
Proof.
  induction a as [|[q t|q t|h] a IH]; simpl;
    [reflexivity|assumption| |assumption].
  now rewrite IH.
Qed.

(** ** What every run of [query] keeps to *)

(** X7.  Only a probe changes the resolver: a query whose first label
    does not start with [hellotelepresence] leaves the resolver, and so
    the suffix list, as it was, however deep the resolution recursed. *)
Theorem only_probes_change_resolver
        net fuel query_ timeout real_name self run :
  query net fuel query_ timeout real_name self = Some run ->
  Bytes.startswith (first_label (q_name query_)) "hellotelepresence" = false ->
  run_self run = self.
Proof.
  revert fuel query_ timeout real_name self run.
  apply (query_run_ind net
           (fun q t rn self run =>
              Bytes.startswith (first_label (q_name q)) "hellotelepresence"
              = false -> run_self run = self));
    intros; try reflexivity; try congruence.
  - match goal with H : _ -> run_self _ = _ |- _ =>
      apply H; now apply nested_no_probe end.
  - match goal with H : _ -> run_self _ = _ |- _ =>
      apply H; now apply nested_no_probe end.
  - auto.
Qed.

Lemma only_probes_change_resolver_witness :
  run_self (Succeeded (mkResult [mkRR "s" (Record_A "10.0.0.7")] [] []),
            Scenario.A_query "s.corp.example", Scenario.tunnel_corp,
            [KubeQuery (Scenario.A_query "s.bar.svc.cluster.local")
                       timeout_kube;
             FallbackQuery (Scenario.A_query "s") timeout_1_1])
  = Scenario.tunnel_corp.
Proof.
  apply (only_probes_change_resolver Scenario.kube_down 2
           (Scenario.A_query "s.corp.example") None None
           Scenario.tunnel_corp); reflexivity.
Defined.

(** X8.  A run calls the cluster resolver at most once, always with the
    timeout [[0.1]] and an A query, and only in tunnel mode; it calls the
    blocking [resolve] at most once, and only outside tunnel mode. *)
Theorem upstream_discipline net fuel query_ timeout real_name self run :
  query net fuel query_ timeout real_name self = Some run ->
  length (kube_calls (run_trace run)) <= 1
  /\ length (native_calls (run_trace run)) <= 1
  /\ Forall (fun call => snd call = timeout_kube
                         /\ q_type (fst call) = dns_A)
            (kube_calls (run_trace run))
  /\ (noloop self = false -> kube_calls (run_trace run) = [])
  /\ (noloop self = true -> native_calls (run_trace run) = []).
Proof.
  revert fuel query_ timeout real_name self run.
  apply (query_run_ind net
           (fun q t rn self run =>
              length (kube_calls (run_trace run)) <= 1
              /\ length (native_calls (run_trace run)) <= 1
              /\ Forall (fun call => snd call = timeout_kube
                                     /\ q_type (fst call) = dns_A)
                        (kube_calls (run_trace run))
              /\ (noloop self = false -> kube_calls (run_trace run) = [])
              /\ (noloop self = true -> native_calls (run_trace run) = [])));
    intros; unfold run_trace in *; cbn [snd fst] in *;
    rewrite ?kube_calls_app, ?native_calls_app, ?app_nil_r;
    cbn [kube_calls native_calls length app];
    rewrite ?app_nil_r; try assumption;
    repeat split; try lia; try congruence; try constructor; auto.
  all: cbn [snd fst]; split; [reflexivity|];
    rewrite kube_query_for_type; assumption.
Qed.

Lemma upstream_discipline_witness :
  length (kube_calls
            [KubeQuery (Scenario.A_query "s.bar.svc.cluster.local")
                       timeout_kube;
             FallbackQuery (Scenario.A_query "s") timeout_1_1]) <= 1.
Proof.
  apply (upstream_discipline Scenario.kube_down 2
           (Scenario.A_query "s.corp.example") None None
           Scenario.tunnel_corp
           (Succeeded (mkResult [mkRR "s" (Record_A "10.0.0.7")] [] []),
            Scenario.A_query "s.corp.example", Scenario.tunnel_corp,
            [KubeQuery (Scenario.A_query "s.bar.svc.cluster.local")
                       timeout_kube;
             FallbackQuery (Scenario.A_query "s") timeout_1_1])).
  reflexivity.
Defined.

(** X9.  The only change [query] ever makes to the query object it is
    given is to set the type of an AAAA query to A, and it does so only
    for a query that passes the sanity check, the probe check and
    suffix stripping untouched; the name is never changed, and a query
    whose name is stripped is left exactly as it came, the recursion
    working on a copy. *)
Theorem query_object_after_call
        net fuel query_ timeout real_name self run :
  query net fuel query_ timeout real_name self = Some run ->
  q_name (run_query run) = q_name query_
  /\ (run_query run = query_
      \/ (q_type query_ = dns_AAAA
          /\ strip_search_suffix (suffixes self)
                                 (Bytes.split "." (q_name query_))
             = Bytes.split "." (q_name query_)
          /\ run_query run = set_type query_ dns_A)).
Proof.
  revert fuel query_ timeout real_name self run.
  apply (query_run_ind net
           (fun q t rn self run =>
              q_name (run_query run) = q_name q
              /\ (run_query run = q
                  \/ (q_type q = dns_AAAA
                      /\ strip_search_suffix (suffixes self)
                                             (Bytes.split "." (q_name q))
                         = Bytes.split "." (q_name q)
                      /\ run_query run = set_type q dns_A))));
    intros; try (split; [reflexivity | left; reflexivity]).
  match goal with H : _ /\ _ |- _ => destruct H as [Nm [E|[T _]]] end.
  - split; [exact Nm|]. right. repeat split; assumption.
  - discriminate.
Qed.

Lemma query_object_after_call_witness :
  q_name (run_query
            (Scenario.echo (Scenario.A_query "www.google.com") None,
             Scenario.A_query "www.google.com", Scenario.tunnel,
             [FallbackQuery (Scenario.A_query "www.google.com") None]))
  = "www.google.com".
Proof.
  apply (query_object_after_call Scenario.kube_down 3
           (Scenario.AAAA_query "www.google.com") None None Scenario.tunnel).
  reflexivity.
Defined.

(** X10.  A query whose type is neither A nor AAAA never reaches the
    cluster resolver or the blocking [resolve], in either mode and
    however its name is stripped; every upstream call of its run is a
    fallback call for a query of that same type. *)
Theorem other_types_go_to_fallback_only
        net fuel query_ timeout real_name self run :
  query net fuel query_ timeout real_name self = Some run ->
  q_type query_ <> dns_A -> q_type query_ <> dns_AAAA ->
  kube_calls (run_trace run) = []
  /\ native_calls (run_trace run) = []
  /\ Forall (fun call => q_type (fst call) = q_type query_)
            (fallback_calls (run_trace run)).
Proof.
  revert fuel query_ timeout real_name self run.
  apply (query_run_ind net
           (fun q t rn self run =>
              q_type q <> dns_A -> q_type q <> dns_AAAA ->
              kube_calls (run_trace run) = []
              /\ native_calls (run_trace run) = []
              /\ Forall (fun call => q_type (fst call) = q_type q)
                        (fallback_calls (run_trace run))));
    intros; unfold run_trace in *; cbn [snd fst] in *; try congruence;
    try (repeat split; repeat constructor; fail).
  - match goal with H : _ -> _ -> _ /\ _ |- _ =>
      destruct (H ltac:(assumption) ltac:(assumption)) as [K [Nt F]] end.
    now repeat split.
  - match goal with H : _ -> _ -> _ /\ _ |- _ =>
      destruct (H ltac:(assumption) ltac:(assumption)) as [K [Nt F]] end.
    rewrite kube_calls_app, native_calls_app, fallback_calls_app, K, Nt.
    repeat split. apply Forall_app. split; [exact F|].
    repeat constructor.
Qed.

Lemma other_types_go_to_fallback_only_witness :
  kube_calls [FallbackQuery (mkQuery "s" 15%N) timeout_1_1;
              FallbackQuery (mkQuery "s.corp.example" 15%N) None] = [].
Proof.
  apply (other_types_go_to_fallback_only Scenario.all_down 2
           (mkQuery "s.corp.example" 15%N) None None Scenario.tunnel_corp
           (Failed (UpstreamError "timeout"),
            mkQuery "s.corp.example" 15%N, Scenario.tunnel_corp,
            [FallbackQuery (mkQuery "s" 15%N) timeout_1_1;
             FallbackQuery (mkQuery "s.corp.example" 15%N) None]));
    [reflexivity | discriminate | discriminate].
Defined.

(** ** How deep the recursion goes *)


Section Depth.

Variable net : Upstreams.

Lemma returns_by_label_count self :
  ~ In [EmptyString] (suffixes self) ->
  forall n query_ timeout real_name extra,
    length (Bytes.split "." (q_name query_)) <= n ->
    exists run,
      query net (n + 2 + extra) query_ timeout real_name self = Some run.
Proof.
  intros NI. induction n as [|n IH]; intros q t rn extra L.
  { pose proof (LabelFacts.length_split "."%char (q_name q)). lia. }
  replace (S n + 2 + extra) with (S (S (S (n + extra)))) by lia.
  destruct (labels_eqb
              (strip_search_suffix (suffixes self)
                                   (Bytes.split "." (q_name q)))
              (Bytes.split "." (q_name q))) eqn:C.
  { apply labels_eqb_eq in C. now apply unstripped_query_returns. }
  apply labels_eqb_neq in C.
  destruct (identify_sanity_check (real_name_of rn q)) as [d|] eqn:E.
  { rewrite (query_sanity net _ _ _ _ _ _ E). eauto. }
  destruct (Bytes.startswith (first_label (q_name q)) "hellotelepresence")
    eqn:P.
  { rewrite (query_probe net _ _ _ _ _ E P). eauto. }
  rewrite (query_strips net _ _ _ _ _ E P C).
  assert (R : exists run,
             query net (S (S (n + extra)))
                   (set_name q
                      (Bytes.join "."
                         (strip_search_suffix (suffixes self)
                            (Bytes.split "." (q_name q)))))
                   timeout_1_1 (Some (q_name q)) self = Some run).
  { destruct (nested_parts (suffixes self) (q_name q)) as [[_ Sp]|[_ Sp]].
    - apply unstripped_query_returns. cbn [q_name set_name].
      rewrite Sp. now apply strip_of_empty_label.
    - replace (S (S (n + extra))) with (n + 2 + extra) by lia.
      apply IH. cbn [q_name set_name]. rewrite Sp.
      pose proof (nested_is_shorter (suffixes self) (q_name q) C). lia. }
  destruct R as [[[[[r|f] q1] s1] t1] ->]; eauto.
Qed.

End Depth.

(** X11.  Unless the suffix made of one empty label was learned, [query]
    returns: a recursion budget of the number of labels of the name plus
    two is enough, and any larger one too. *)
Theorem query_returns net query_ timeout real_name self extra :
  ~ In [EmptyString] (suffixes self) ->
  exists run,
    query net (length (Bytes.split "." (q_name query_)) + 2 + extra)
          query_ timeout real_name self = Some run.
Proof.
  intros NI. now apply returns_by_label_count.
Qed.

Lemma query_returns_witness :
  exists run,
    query Scenario.kube_up
          (length (Bytes.split "." (q_name (Scenario.AAAA_query "s.c.a.b")))
           + 2 + 0)
          (Scenario.AAAA_query "s.c.a.b") None None Scenario.tunnel_two
    = Some run.
Proof.
  apply (query_returns Scenario.kube_up (Scenario.AAAA_query "s.c.a.b")
           None None Scenario.tunnel_two 0).
  simpl. intros [H|[H|[]]]; discriminate.
Defined.



(** ** The answer of the cluster resolver and native resolution *)

(** X13.  When the cluster resolver answers, [_no_loop_kube_query]
    returns that answer with every answer record renamed to the real
    name and nothing else changed (payloads, order, authority and
    additional sections), and the fallback resolver is not called; so
    does [query] in tunnel mode for every cluster-safe A query that
    reaches the type dispatch. *)
Theorem cluster_answer_is_renamed
        net fuel query_ timeout real_name self result :
  kubedns_query net (kube_query_for self query_) timeout_kube
  = Succeeded result ->
  let trace := [KubeQuery (kube_query_for self query_) timeout_kube] in
  (forall real,
      no_loop_kube_query net query_ timeout real self
      = Some (Succeeded (fix_names real result), self, trace)
      /\ map rr_payload (answers (fix_names real result))
         = map rr_payload (answers result)
      /\ map rr_name (answers (fix_names real result))
         = map (fun _ => real) (answers result)
      /\ authority (fix_names real result) = authority result
      /\ additional (fix_names real result) = additional result)
  /\ fallback_calls trace = []
  /\ (noloop self = true ->
      q_type query_ = dns_A ->
      cluster_safe (local_names self) (q_name query_) = true ->
      identify_sanity_check (real_name_of real_name query_) = None ->
      Bytes.startswith (first_label (q_name query_)) "hellotelepresence"
      = false ->
      strip_search_suffix (suffixes self) (Bytes.split "." (q_name query_))
      = Bytes.split "." (q_name query_) ->
      query net (S fuel) query_ timeout real_name self
      = Some (Succeeded (fix_names (real_name_of real_name query_) result),
              query_, self, trace)).
Proof.
  intros K trace. split; [|split; [reflexivity|]].
  - intros real. split; [|repeat split].
    + apply (no_loop_kube_query_succeeded net _ _ _ _ _ K).
    + unfold fix_names. cbn [answers]. rewrite map_map. reflexivity.
    + unfold fix_names. cbn [answers]. rewrite map_map. reflexivity.
  - intros L T S E P C.
    rewrite (query_dispatches net fuel _ _ _ _ E P C).
    rewrite (dispatch_tunnel_safe net _ _ _ _ _ T L S).
    now rewrite (no_loop_kube_query_succeeded net _ _ _ _ _ K).
Qed.

Lemma cluster_answer_is_renamed_witness :
  query Scenario.kube_up 1 (Scenario.A_query "foo.bar") None None
        Scenario.tunnel
  = Some (Succeeded
            (fix_names "foo.bar"
               (mkResult [mkRR "foo.bar.svc.cluster.local"
                               (Record_A "10.0.0.7")] [] [])),
          Scenario.A_query "foo.bar", Scenario.tunnel,
          [KubeQuery (Scenario.A_query "foo.bar.svc.cluster.local")
                     timeout_kube]).
Proof.
  apply (cluster_answer_is_renamed Scenario.kube_up 0
           (Scenario.A_query "foo.bar") None None Scenario.tunnel
           (mkResult [mkRR "foo.bar.svc.cluster.local"
                           (Record_A "10.0.0.7")] [] []));
    reflexivity.
Defined.

(** X14.  Outside tunnel mode an A query that reaches the type dispatch
    is resolved by the blocking [resolve] alone, neither upstream
    resolver being called: the addresses come back as A records under
    the real name, one for each address and in their order (none for an
    empty list), and an exception comes back as a [DomainError] with its
    message. *)
Theorem plain_mode_native_resolution
        net fuel query_ timeout real_name self :
  noloop self = false ->
  q_type query_ = dns_A ->
  identify_sanity_check (real_name_of real_name query_) = None ->
  Bytes.startswith (first_label (q_name query_)) "hellotelepresence" = false ->
  strip_search_suffix (suffixes self) (Bytes.split "." (q_name query_))
  = Bytes.split "." (q_name query_) ->
  (forall ips,
      resolve net (q_name query_) = Addresses ips ->
      query net (S fuel) query_ timeout real_name self
      = Some (Succeeded
                (mkResult
                   (map (fun ip => mkRR (real_name_of real_name query_)
                                        (Record_A ip)) ips) [] []),
              query_, self, [NativeResolve (q_name query_)]))
  /\ (forall message,
         resolve net (q_name query_) = Raised message ->
         query net (S fuel) query_ timeout real_name self
         = Some (Failed (DomainError message), query_, self,
                 [NativeResolve (q_name query_)])).
Proof.
  intros L T E P C.
  rewrite (query_dispatches net fuel _ _ _ _ E P C).
  rewrite (dispatch_plain net _ _ _ _ _ T L).
  split; intros x R; now rewrite R.
Qed.

Lemma plain_mode_native_resolution_witness :
  query (mkUpstreams Scenario.silent Scenario.silent
                     (fun _ => Addresses ["10.96.0.1"; "10.96.0.2"]))
        1 (Scenario.A_query "db") None (Some "db.corp.example")
        (init None "bar" "")
  = Some (Succeeded
            (mkResult [mkRR "db.corp.example" (Record_A "10.96.0.1");
                       mkRR "db.corp.example" (Record_A "10.96.0.2")] [] []),
          Scenario.A_query "db", init None "bar" "", [NativeResolve "db"]).
Proof.
  apply (proj1 (plain_mode_native_resolution
                  (mkUpstreams Scenario.silent Scenario.silent
                     (fun _ => Addresses ["10.96.0.1"; "10.96.0.2"]))
                  0 (Scenario.A_query "db") None (Some "db.corp.example")
                  (init None "bar" "")
                  eq_refl eq_refl eq_refl eq_refl eq_refl)
               ["10.96.0.1"; "10.96.0.2"]).
  reflexivity.
Defined.

Lemma AAAA_unstripped_as_A_witness :
  outcome_of (query Scenario.kube_down 2
                    (Scenario.AAAA_query "www.google.com") None None
                    Scenario.tunnel)
  = outcome_of (query Scenario.kube_down 1
                      (set_type (Scenario.AAAA_query "www.google.com") dns_A)
                      None (Some "www.google.com") Scenario.tunnel).
Proof.
  apply (AAAA_unstripped_as_A Scenario.kube_down 0
           (Scenario.AAAA_query "www.google.com") None None Scenario.tunnel);
    reflexivity.
Defined.

(** ** From the probe to the stripped query *)





(** ** Reading resolv.conf *)

Module ResolvConfFacts.
Import ResolvConf.

(** What one line adds to the result. *)
Lemma scan_line_adds result line :
  scan_line result line = result ++ scan_line [] line.
Proof.
  unfold scan_line.
  destruct (split_whitespace (lower line)) as [|keyword [|address rest]];
    rewrite ?app_nil_r; try reflexivity.
  destruct (String.eqb keyword "nameserver");
    [reflexivity | now rewrite app_nil_r].
Qed.

Lemma scan_line_at_most_one line : length (scan_line [] line) <= 1.
Proof.
  unfold scan_line.
  destruct (split_whitespace (lower line)) as [|keyword [|address rest]];
    simpl; try lia.
  destruct (String.eqb keyword "nameserver"); simpl; lia.
Qed.

Lemma fold_scan lines result :
  fold_left scan_line lines result
  = result ++ flat_map (scan_line []) lines.
Proof.
  revert result; induction lines as [|line rest IH]; intros result; simpl.
  - now rewrite app_nil_r.
  - rewrite IH, scan_line_adds. now rewrite <- app_assoc.
Qed.

Lemma nameservers_flat_map lines :
  get_resolv_conf_namservers lines = flat_map (scan_line []) lines.
Proof. unfold get_resolv_conf_namservers. now rewrite fold_scan. Qed.

Lemma words_of_split s :
  Forall (fun word => word <> EmptyString
                      /\ forall c, In c (chars word) ->
                                   is_space c = false /\ In c (chars s))
         (split_whitespace s).
Proof.
  induction s as [|c rest IH]; [constructor|]. cbn [split_whitespace].
  destruct (is_space c) eqn:Sc.
  - eapply Forall_impl; [|exact IH]. simpl.
    intros w [N H]. split; [exact N|]. intros x I.
    destruct (H x I). auto.
  - destruct rest as [|d rest'].
    + constructor; [|constructor]. split; [discriminate|].
      simpl. intros x [<-|[]]. auto.
    + destruct (is_space d) eqn:Sd.
      * constructor.
        -- split; [discriminate|]. simpl. intros x [<-|[]]. auto.
        -- eapply Forall_impl; [|exact IH]. simpl.
           intros w [N H]. split; [exact N|]. intros x I.
           destruct (H x I). auto.
      * destruct (split_whitespace (String d rest')) as [|word words].
        -- constructor; [|constructor]. split; [discriminate|].
           simpl. intros x [<-|[]]. auto.
        -- inversion IH as [|w ws [N H] F]; subst. constructor.
           ++ split; [discriminate|]. intros x [<-|I]; [simpl; auto|].
              destruct (H x I). simpl in *. auto.
           ++ eapply Forall_impl; [|exact F]. simpl.
              intros w [N' H']. split; [exact N'|]. intros x I.
              destruct (H' x I). auto.
Qed.

Lemma lower_char_not_upper c : upper_case (lower_char c) = false.
Proof.
  unfold lower_char, upper_case.
  destruct ((65 <=? nat_of_ascii c) && (nat_of_ascii c <=? 90))%nat eqn:U;
    [|exact U].
  apply andb_true_iff in U. destruct U as [A B].
  apply Nat.leb_le in A, B.
  rewrite nat_ascii_embedding by lia.
  apply andb_false_iff. right. apply Nat.leb_gt. lia.
Qed.

Lemma chars_of_lower s c :
  In c (chars (lower s)) -> upper_case c = false.
Proof.
  induction s as [|d rest IH]; simpl; [contradiction|].
  intros [<-|I]; [apply lower_char_not_upper | now apply IH].
Qed.

Lemma lower_char_idempotent c : lower_char (lower_char c) = lower_char c.
Proof.
  unfold lower_char at 1.
  pose proof (lower_char_not_upper c) as U. unfold upper_case in U.
  now rewrite U.
Qed.

Lemma lower_idempotent s : lower (lower s) = lower s.
Proof.
  induction s as [|c rest IH]; simpl; [reflexivity|].
  now rewrite lower_char_idempotent, IH.
Qed.

End ResolvConfFacts.

(** X16.  The nameservers are collected line by line, in the order of
    the file and at most one from a line: the result for two pieces of a
    file is the result for the first followed by the result for the
    second, and an empty file gives none.  The letter case of the file
    does not matter. *)
Theorem nameservers_line_by_line (first second : list string) :
  ResolvConf.get_resolv_conf_namservers (first ++ second)
  = ResolvConf.get_resolv_conf_namservers first
    ++ ResolvConf.get_resolv_conf_namservers second
  /\ length (ResolvConf.get_resolv_conf_namservers first) <= length first
  /\ ResolvConf.get_resolv_conf_namservers (map ResolvConf.lower first)
     = ResolvConf.get_resolv_conf_namservers first.
Proof.
  rewrite !ResolvConfFacts.nameservers_flat_map. split; [|split].
  - apply flat_map_app.
  - induction first as [|line rest IH]; simpl; [lia|].
    rewrite length_app.
    pose proof (ResolvConfFacts.scan_line_at_most_one line). lia.
  - induction first as [|line rest IH]; simpl; [reflexivity|].
    rewrite IH. f_equal. unfold ResolvConf.scan_line.
    now rewrite ResolvConfFacts.lower_idempotent.
Qed.

(** X17.  In a file of 7-bit characters every nameserver returned is a
    word of its line put in lower case: it is not empty and it holds no
    white space and no capital letter. *)
Theorem nameservers_are_lower_case_words (lines : list string) address :
  forallb ResolvConf.all_seven_bit lines = true ->
  In address (ResolvConf.get_resolv_conf_namservers lines) ->
  address <> EmptyString
  /\ (forall c, In c (ResolvConf.chars address) ->
                ResolvConf.is_space c = false
                /\ ResolvConf.upper_case c = false)
  /\ exists line, In line lines
                  /\ In address (ResolvConf.split_whitespace
                                   (ResolvConf.lower line)).
Proof.
  intros _ I. rewrite ResolvConfFacts.nameservers_flat_map in I.
  apply in_flat_map in I. destruct I as [line [IL I]].
  unfold ResolvConf.scan_line in I.
  pose proof (ResolvConfFacts.words_of_split (ResolvConf.lower line)) as W.
  destruct (ResolvConf.split_whitespace (ResolvConf.lower line))
    as [|keyword [|word rest]] eqn:E; try contradiction.
  destruct (String.eqb keyword "nameserver"); [|contradiction].
  destruct I as [<-|[]].
  inversion W as [|k ws _ W']; subst.
  inversion W' as [|w ws' [N H] _]; subst.
  split; [exact N|]. split.
  - intros c Ic. destruct (H c Ic) as [Sp Ch]. split; [exact Sp|].
    now apply (ResolvConfFacts.chars_of_lower line).
  - exists line. split; [exact IL|]. rewrite E. simpl. auto.
Qed.

Lemma nameservers_are_lower_case_words_witness :
  "fe80::1" <> EmptyString
  /\ (forall c, In c (ResolvConf.chars "fe80::1") ->
                ResolvConf.is_space c = false
                /\ ResolvConf.upper_case c = false)
  /\ exists line,
      In line ["search corp.example"; " NameServer  FE80::1 10.0.0.2"]
      /\ In "fe80::1" (ResolvConf.split_whitespace (ResolvConf.lower line)).
Proof.
  apply (nameservers_are_lower_case_words
           ["search corp.example"; " NameServer  FE80::1 10.0.0.2"]
           "fe80::1"); [reflexivity | simpl; auto].
Defined.

(** X18.  In tunnel mode the constructor fails with [IndexError] exactly
    when no line of resolv.conf yields a nameserver, and otherwise takes
    the first nameserver of the file as the cluster resolver's address;
    outside tunnel mode it does not depend on the file. *)
Theorem cluster_nameserver_from_resolv_conf
        (lines : list string) nameserver namespace names :
  (ResolvConf.construct lines (Some nameserver) namespace names
   = ResolvConf.IndexError
   <-> Forall (fun line => ResolvConf.scan_line [] line = []) lines)
  /\ (forall before line after address,
         lines = before ++ line :: after ->
         Forall (fun line => ResolvConf.scan_line [] line = []) before ->
         ResolvConf.scan_line [] line = [address] ->
         ResolvConf.construct lines (Some nameserver) namespace names
         = ResolvConf.Built (init (Some nameserver) namespace names)
                            (Some address))
  /\ ResolvConf.construct lines None namespace names
     = ResolvConf.Built (init None namespace names) None.
Proof.
  assert (Z : forall ls,
             flat_map (ResolvConf.scan_line []) ls = []
             <-> Forall (fun line => ResolvConf.scan_line [] line = []) ls).
  { induction ls as [|l ls IH]; simpl.
    - split; [constructor|reflexivity].
    - split.
      + intros H. apply app_eq_nil in H. destruct H as [A B].
        constructor; [exact A | now apply IH].
      + intros H. inversion H; subst.
        rewrite (proj2 IH) by assumption.
        now rewrite app_nil_r. }
  unfold ResolvConf.construct. cbn [init noloop].
  rewrite ResolvConfFacts.nameservers_flat_map.
  split; [|split; [|reflexivity]].
  - rewrite <- Z.
    destruct (flat_map (ResolvConf.scan_line []) lines); split;
      congruence.
  - intros before line after address -> B L.
    rewrite flat_map_app. rewrite (proj2 (Z before) B). simpl.
    now rewrite L.
Qed.

Lemma cluster_nameserver_from_resolv_conf_witness :
  ResolvConf.construct
    ["# generated"; "search default.svc.cluster.local";
     "nameserver 10.96.0.10"; "nameserver 10.96.0.11"]
    (Some "10.0.0.2") "bar" ""
  = ResolvConf.Built (init (Some "10.0.0.2") "bar" "") (Some "10.96.0.10").
Proof.
  apply (proj1 (proj2 (cluster_nameserver_from_resolv_conf
                         ["# generated"; "search default.svc.cluster.local";
                          "nameserver 10.96.0.10"; "nameserver 10.96.0.11"]
                         "10.0.0.2" "bar" ""))
               ["# generated"; "search default.svc.cluster.local"]
               "nameserver 10.96.0.10" ["nameserver 10.96.0.11"]
               "10.96.0.10");
    [reflexivity | repeat constructor | reflexivity].
Defined.

Module LineFacts.
Import ResolvConf.

Lemma split_skips_space pad s :
  ResolvConf.all_chars is_space pad = true ->
  split_whitespace (pad ++ s)%string = split_whitespace s.
Proof.
  induction pad as [|c pad IH]; simpl; [reflexivity|].
  intros H. apply andb_true_iff in H. destruct H as [-> H]. now apply IH.
Qed.

Lemma split_first_word word sp rest :
  word <> EmptyString ->
  ResolvConf.all_chars (fun c => negb (is_space c)) word = true ->
  is_space sp = true ->
  split_whitespace (word ++ String sp rest)%string
  = word :: split_whitespace rest.
Proof.
  intros N W S. induction word as [|c word IH]; [congruence|].
  simpl in W. apply andb_true_iff in W. destruct W as [C W].
  apply negb_true_iff in C.
  cbn [append split_whitespace]. rewrite C.
  destruct word as [|d word'].
  - cbn [append]. rewrite S. cbn [split_whitespace]. now rewrite S.
  - assert (D : is_space d = false).
    { simpl in W. apply andb_true_iff in W. destruct W as [D _].
      now apply negb_true_iff in D. }
    cbn [append]. rewrite D.
    change (String d (word' ++ String sp rest)%string)
      with (String d word' ++ String sp rest)%string.
    now rewrite IH by (discriminate || assumption).
Qed.

Lemma split_last_word word :
  word <> EmptyString ->
  ResolvConf.all_chars (fun c => negb (is_space c)) word = true ->
  split_whitespace word = [word].
Proof.
  intros N W. induction word as [|c word IH]; [congruence|].
  simpl in W. apply andb_true_iff in W. destruct W as [C W].
  apply negb_true_iff in C.
  cbn [split_whitespace]. rewrite C.
  destruct word as [|d word']; [reflexivity|].
  assert (D : is_space d = false).
  { simpl in W. apply andb_true_iff in W. destruct W as [D _].
    now apply negb_true_iff in D. }
  rewrite D. now rewrite IH by (discriminate || assumption).
Qed.

Lemma lower_append a b : lower (a ++ b)%string = (lower a ++ lower b)%string.
Proof. induction a; simpl; congruence. Qed.

Lemma is_space_lower_char c : is_space (lower_char c) = is_space c.
Proof.
  unfold lower_char.
  destruct ((65 <=? nat_of_ascii c) && (nat_of_ascii c <=? 90))%nat eqn:U;
    [|reflexivity].
  apply andb_true_iff in U. destruct U as [A B].
  apply Nat.leb_le in A, B. unfold is_space.
  rewrite nat_ascii_embedding by lia.
  repeat match goal with
         | |- context [(?a <=? ?b)%nat] =>
             destruct (Nat.leb_spec a b); try lia
         end; reflexivity.
Qed.

Lemma all_space_lower s :
  ResolvConf.all_chars is_space (lower s) = ResolvConf.all_chars is_space s.
Proof.
  induction s as [|c s IH]; simpl; [reflexivity|].
  now rewrite is_space_lower_char, IH.
Qed.

Lemma no_space_lower s :
  ResolvConf.all_chars (fun c => negb (is_space c)) (lower s)
  = ResolvConf.all_chars (fun c => negb (is_space c)) s.
Proof.
  induction s as [|c s IH]; simpl; [reflexivity|].
  now rewrite is_space_lower_char, IH.
Qed.

Lemma lower_nonempty s : s <> EmptyString -> lower s <> EmptyString.
Proof. destruct s; [congruence | discriminate]. Qed.

End LineFacts.

(** X19.  A line of 7-bit characters that consists of optional white
    space, the word [nameserver] in any letter case, white space, an
    address, and then nothing or white space followed by anything, adds
    the address, in lower case, to the result. *)
Theorem nameserver_line
        (result : list string) pad keyword sp gap address tail :
  ResolvConf.all_seven_bit
    (pad ++ keyword ++ String sp gap ++ address ++ tail)%string = true ->
  ResolvConf.all_chars ResolvConf.is_space pad = true ->
  ResolvConf.lower keyword = "nameserver" ->
  ResolvConf.is_space sp = true ->
  ResolvConf.all_chars ResolvConf.is_space gap = true ->
  address <> EmptyString ->
  ResolvConf.all_chars (fun c => negb (ResolvConf.is_space c)) address = true ->
  tail = EmptyString
  \/ (exists sp' rest, tail = String sp' rest
                       /\ ResolvConf.is_space sp' = true) ->
  ResolvConf.scan_line result
    (pad ++ keyword ++ String sp gap ++ address ++ tail)%string
  = result ++ [ResolvConf.lower address].
Proof.
  intros _ Pad Kw Sp Gap N A T.
  unfold ResolvConf.scan_line.
  assert (L : ResolvConf.lower
                (pad ++ keyword ++ String sp gap ++ address ++ tail)%string
              = (ResolvConf.lower pad ++ "nameserver"
                 ++ String (ResolvConf.lower_char sp)
                      (ResolvConf.lower gap ++ ResolvConf.lower address
                       ++ ResolvConf.lower tail))%string).
  { rewrite !LineFacts.lower_append, Kw. reflexivity. }
  rewrite L.
  rewrite LineFacts.split_skips_space
    by now rewrite LineFacts.all_space_lower.
  rewrite LineFacts.split_first_word;
    [|discriminate|reflexivity|now rewrite LineFacts.is_space_lower_char].
  rewrite LineFacts.split_skips_space
    by now rewrite LineFacts.all_space_lower.
  assert (W : exists rest,
             ResolvConf.split_whitespace
               (ResolvConf.lower address ++ ResolvConf.lower tail)%string
             = ResolvConf.lower address :: rest).
  { destruct T as [->|[sp' [rest [-> S']]]].
    - exists []. cbn [ResolvConf.lower].
      rewrite BytesFacts.append_nil_r.
      apply LineFacts.split_last_word;
        [now apply LineFacts.lower_nonempty
        |now rewrite LineFacts.no_space_lower].
    - eexists. cbn [ResolvConf.lower].
      apply LineFacts.split_first_word;
        [now apply LineFacts.lower_nonempty
        |now rewrite LineFacts.no_space_lower
        |now rewrite LineFacts.is_space_lower_char]. }
  destruct W as [rest ->]. reflexivity.
Qed.

Lemma nameserver_line_witness :
  ResolvConf.scan_line ["10.96.0.10"]
    ("  " ++ "NameServer" ++ String " " " " ++ "FE80::1" ++ " # standby")%string
  = ["10.96.0.10"] ++ [ResolvConf.lower "FE80::1"].
Proof.
  apply (nameserver_line ["10.96.0.10"] "  " "NameServer" " "%char " "
           "FE80::1" " # standby"); try reflexivity; [discriminate|].
  right. now exists " "%char, "# standby".
Defined.
